(** * Tournament WebSocket server: dual-transport ingestion and broadcast core

    A shallow embedding of [websocket-server.js] (the resilient deployment,
    with the Redis subscriber and the spool-directory fallback) and of its
    near-duplicate Railway deployment (Redis only), followed by the
    properties of the broadcast engine, the connection registry, the
    availability flag and the spool poller.

    The Node event loop runs one callback at a time, so every callback is a
    function on one explicit program state.  What the libraries and the
    operating system decide (whether [ws.send] throws, what a file holds,
    when a promise settles) is recorded in that state or carried by the
    event that triggers the callback. *)

From Stdlib Require Import ZArith QArith String Ascii.
From stdpp Require Import gmap strings list fin_maps sorting.

Close Scope Q_scope.

Open Scope string_scope.
Open Scope list_scope.
Open Scope nat_scope.

(** ** JSON values *)

(** What [JSON.parse] can return.  Numbers are kept as their literal.  The
    members of an object are its own properties, each key once. *)
#[local] Unset Elimination Schemes.
Inductive json : Type :=
| JNull
| JBool (b : bool)
| JNumber (literal : string)
| JString (s : string)
| JArray (items : list json)
| JObject (members : list (string * json)).
#[local] Set Elimination Schemes.

(** The two built-ins the server calls.  [JSON_parse] is [None] where
    [JSON.parse] throws a SyntaxError. *)
Class JSON := {
  JSON_parse : string → option json;
  JSON_stringify : json → string
}.

Fixpoint assoc (key : string) (members : list (string * json)) : option json :=
  match members with
  | [] => None
  | (k, v) :: rest => if String.eqb k key then Some v else assoc key rest
  end.

(** ** Sockets, files and the program state *)

(** [WebSocket.CONNECTING], [OPEN], [CLOSING], [CLOSED]. *)
Inductive ready_state := CONNECTING | OPEN | CLOSING | CLOSED.

Definition is_OPEN (rs : ready_state) : bool :=
  match rs with OPEN => true | _ => false end.

(** A socket object of the [ws] library.  [send_throws] is the library's
    decision for the next [ws.send]; [listening] tells whether the server
    has attached its 'close' and 'error' handlers. *)
Record socket := Socket {
  readyState : ready_state;
  send_throws : bool;
  listening : bool
}.

(** An entry of the spool directory.  [mtimeMs] is in milliseconds and can
    carry a fraction.  [content] is [None] when [fs.readFileSync] throws on
    it.  [pinned] is the message of the error [fs.unlinkSync] throws on it,
    [None] when the file can be deleted. *)
Record file := File {
  mtimeMs : Q;
  content : option string;
  pinned : option string
}.

(** Where [startRedis] is suspended. *)
Inductive redis_phase :=
| Disabled
| ConnectingClient
| ConnectingSubscriber
| Subscribing
| Subscribed
| Unavailable.

(** What a callback does to the outside world, in order. *)
Inductive effect :=
| WsSend (ws : nat) (message : string) (ok : bool)
| ConsoleError (line detail : string)
| ConsoleWarn (line : string)
| Broadcasting (message : string)
| BroadcastComplete (sent failed total : nat)
| FsReaddir
| FsStat (name : string)
| FsRead (name : string)
| FsUnlink (name : string).

Record state := State {
  sockets : list socket;            (* the socket objects; a handle is an index *)
  clients : list nat;               (* const clients = new Set(), in insertion order *)
  redisAvailable : bool;
  redis : redis_phase;
  processedFiles : gset string;
  disk : gmap string file;          (* the entries of EVENT_DIR *)
  dir_ok : bool;                    (* false: fs.readdirSync throws *)
  dir_order : string → string → bool; (* fs.readdirSync lists a before b when it holds *)
  clock : nat → Z;                  (* what the k-th call of Date.now() returns *)
  reads : nat;                      (* how many calls of Date.now() were made *)
  trace : list effect
}.

Definition set_sockets (v : list socket) (st : state) : state :=
  State v (clients st) (redisAvailable st) (redis st) (processedFiles st)
        (disk st) (dir_ok st) (dir_order st) (clock st) (reads st) (trace st).
Definition set_clients (v : list nat) (st : state) : state :=
  State (sockets st) v (redisAvailable st) (redis st) (processedFiles st)
        (disk st) (dir_ok st) (dir_order st) (clock st) (reads st) (trace st).
Definition set_redisAvailable (v : bool) (st : state) : state :=
  State (sockets st) (clients st) v (redis st) (processedFiles st)
        (disk st) (dir_ok st) (dir_order st) (clock st) (reads st) (trace st).
Definition set_redis (v : redis_phase) (st : state) : state :=
  State (sockets st) (clients st) (redisAvailable st) v (processedFiles st)
        (disk st) (dir_ok st) (dir_order st) (clock st) (reads st) (trace st).
Definition set_processedFiles (v : gset string) (st : state) : state :=
  State (sockets st) (clients st) (redisAvailable st) (redis st) v
        (disk st) (dir_ok st) (dir_order st) (clock st) (reads st) (trace st).
Definition set_disk (v : gmap string file) (st : state) : state :=
  State (sockets st) (clients st) (redisAvailable st) (redis st) (processedFiles st)
        v (dir_ok st) (dir_order st) (clock st) (reads st) (trace st).
Definition set_dir_ok (v : bool) (st : state) : state :=
  State (sockets st) (clients st) (redisAvailable st) (redis st) (processedFiles st)
        (disk st) v (dir_order st) (clock st) (reads st) (trace st).
Definition set_dir_order (v : string → string → bool) (st : state) : state :=
  State (sockets st) (clients st) (redisAvailable st) (redis st) (processedFiles st)
        (disk st) (dir_ok st) v (clock st) (reads st) (trace st).
Definition set_clock (v : nat → Z) (st : state) : state :=
  State (sockets st) (clients st) (redisAvailable st) (redis st) (processedFiles st)
        (disk st) (dir_ok st) (dir_order st) v (reads st) (trace st).
Definition set_reads (v : nat) (st : state) : state :=
  State (sockets st) (clients st) (redisAvailable st) (redis st) (processedFiles st)
        (disk st) (dir_ok st) (dir_order st) (clock st) v (trace st).
Definition set_trace (v : list effect) (st : state) : state :=
  State (sockets st) (clients st) (redisAvailable st) (redis st) (processedFiles st)
        (disk st) (dir_ok st) (dir_order st) (clock st) (reads st) v.

(** ** Callbacks: state and exceptions *)

(** A statement either completes with a value or throws an error whose
    [message] is given; the state reached so far is kept in both cases. *)
Inductive completion (A : Type) : Type :=
| Normal (a : A)
| Throw (message : string).
Arguments Normal {A} a.
Arguments Throw {A} message.

Definition M (A : Type) : Type := state → state * completion A.

Definition ret {A} (a : A) : M A := λ st, (st, Normal a).

Definition bind {A B} (m : M A) (k : A → M B) : M B :=
  λ st, match m st with
        | (st', Normal a) => k a st'
        | (st', Throw e) => (st', Throw e)
        end.

Definition throw {A} (message : string) : M A := λ st, (st, Throw message).

(** [try { body } catch (err) { handler(err.message) }] *)
Definition try_catch {A} (body : M A) (handler : string → M A) : M A :=
  λ st, match body st with
        | (st', Normal a) => (st', Normal a)
        | (st', Throw e) => handler e st'
        end.

Definition gets {A} (f : state → A) : M A := λ st, (st, Normal (f st)).
Definition modify (f : state → state) : M unit := λ st, (f st, Normal tt).

Declare Scope js_scope.
Delimit Scope js_scope with js.
Notation "x <- m ;; k" := (bind m (λ x, k))
  (at level 100, m at next level, right associativity) : js_scope.
Notation "m ;;; k" := (bind m (λ _, k))
  (at level 100, right associativity) : js_scope.
Open Scope js_scope.

(** [for (const x of xs) body(x)]: an exception leaves the loop. *)
Fixpoint for_of {A} (xs : list A) (body : A → M unit) : M unit :=
  match xs with
  | [] => ret tt
  | x :: rest => body x ;;; for_of rest body
  end.

(** A loop that also updates local variables [acc]. *)
Fixpoint for_of_with {A B} (xs : list A) (body : B → A → M B) (acc : B) : M B :=
  match xs with
  | [] => ret acc
  | x :: rest => acc' <- body acc x ;; for_of_with rest body acc'
  end.

(** The state a callback leaves behind. *)
Definition exec {A} (m : M A) (st : state) : state := fst (m st).

(** *** Primitive statements *)

Definition emit (e : effect) : M unit :=
  modify (λ st, set_trace (trace st ++ [e]) st).

Definition console_error (line detail : string) : M unit :=
  emit (ConsoleError line detail).

(** [client.readyState]; a handle that names no socket reads as CLOSED. *)
Definition get_readyState (ws : nat) : M ready_state :=
  gets (λ st, match sockets st !! ws with
              | Some s => readyState s
              | None => CLOSED
              end).

(** [ws.send(message)] *)
Definition ws_send (ws : nat) (message : string) : M unit :=
  s <- gets (λ st, sockets st !! ws) ;;
  match s with
  | Some s =>
      if send_throws s
      then emit (WsSend ws message false) ;;; throw "send failed"
      else emit (WsSend ws message true)
  | None => throw "send failed"
  end.

(** [Date.now()], in whole milliseconds. *)
Definition Date_now : M Z :=
  t <- gets (λ st, clock st (reads st)) ;;
  modify (λ st, set_reads (S (reads st)) st) ;;;
  ret t.

(** [clients.add(ws)] and [clients.delete(ws)] on the Set. *)
Definition clients_add (ws : nat) : M unit :=
  modify (λ st, if bool_decide (ws ∈ clients st) then st
                else set_clients (clients st ++ [ws]) st).

Definition clients_delete (ws : nat) : M unit :=
  modify (λ st, set_clients (filter (λ c, c ≠ ws) (clients st)) st).

(** [v.event], [v.payload]: a TypeError on null, undefined ([None]) where
    the value has no such member. *)
Definition member (v : json) (key : string) : M (option json) :=
  match v with
  | JNull => throw "Cannot read properties of null"
  | JObject members => ret (assoc key members)
  | _ => ret None
  end.

(** Whether the string conversion of a value decoded by [JSON.parse]
    returns.  An object is converted by its [toString]: the one it inherits
    returns, but a member named [toString] hides it, holds no function, and
    [valueOf] gives no primitive, so the conversion throws a TypeError.  An
    array is converted by [join], which converts its elements. *)
Fixpoint stringifies (v : json) : bool :=
  match v with
  | JObject members =>
      match assoc "toString" members with
      | Some _ => false
      | None => true
      end
  | JArray items => forallb stringifies items
  | _ => true
  end.

(** [`${v}`], a value placed in a template literal; undefined ([None]) is
    converted as well. *)
Definition template (v : option json) : M unit :=
  match v with
  | Some j =>
      if stringifies j then ret tt
      else throw "Cannot convert object to primitive value"
  | None => ret tt
  end.

(** [JSON.parse(text)] *)
Definition parse `{JSON} (text : string) : M json :=
  match JSON_parse text with
  | Some v => ret v
  | None => throw "Unexpected token"
  end.

(** The envelope sent on connect. *)
Definition connected_envelope : json :=
  JObject [("event", JString "connected");
           ("payload",
            JObject [("message", JString "Connected to tournament WebSocket server")])].

(** ** The connection registry (the same text in both deployments) *)

(** The socket object the [ws] library hands to the 'connection' callback:
    the handshake is done, so it is OPEN; whether its [send] will throw is
    the library's business. *)
Definition new_socket (throws : bool) : M nat :=
  ws <- gets (λ st, length (sockets st)) ;;
  modify (λ st, set_sockets (sockets st ++ [Socket OPEN throws false]) st) ;;;
  ret ws.

(** [ws.on('close', ...); ws.on('error', ...)] *)
Definition attach_listeners (ws : nat) : M unit :=
  modify (λ st, match sockets st !! ws with
                | Some s => set_sockets
                              (<[ws := Socket (readyState s) (send_throws s) true]> (sockets st)) st
                | None => st
                end).

(** [wss.on('connection', ws => { ... })] *)
Definition on_connection `{JSON} (ws : nat) : M unit :=
  clients_add ws ;;;
  ws_send ws (JSON_stringify connected_envelope) ;;;
  attach_listeners ws.

(** The 'close' and 'error' listeners of one socket; a socket the
    listeners were never attached to has none to run. *)
Definition on_close (ws : nat) : M unit :=
  s <- gets (λ st, sockets st !! ws) ;;
  match s with
  | Some s => if listening s then clients_delete ws else ret tt
  | None => ret tt
  end.

Definition on_error (ws : nat) : M unit := on_close ws.

(** What the transport layer does to a socket object between callbacks. *)
Definition socket_becomes (ws : nat) (rs : ready_state) (throws : bool) : M unit :=
  modify (λ st, match sockets st !! ws with
                | Some s => set_sockets (<[ws := Socket rs throws (listening s)]> (sockets st)) st
                | None => st
                end).

(** ** websocket-server.js *)

Module WebsocketServer.
Section Program.
Context `{JSON}.

(** One turn of the loop of [broadcast]; [tally] is [(sent, failed)]. *)
Definition deliver (message : string) (tally : nat * nat) (client : nat) : M (nat * nat) :=
  rs <- get_readyState client ;;
  if is_OPEN rs then
    try_catch
      (ws_send client message ;;; ret (S (fst tally), snd tally))
      (λ err, console_error "Failed to send to client:" err ;;;
              ret (fst tally, S (snd tally)))
  else
    ret (fst tally, S (snd tally)).

(** [function broadcast(event)] *)
Definition broadcast (event : json) : M unit :=
  let message := JSON_stringify event in
  tag <- member event "event" ;;
  template tag ;;;
  emit (Broadcasting message) ;;;
  registered <- gets clients ;;
  tally <- for_of_with registered (deliver message) (0, 0) ;;
  total <- gets (λ st, length (clients st)) ;;
  emit (BroadcastComplete (fst tally) (snd tally) total).

(** *** Redis *)

(** The [catch] block of [startRedis]. *)
Definition redis_failed (err : string) : M unit :=
  modify (set_redisAvailable false) ;;;
  emit (ConsoleWarn "Redis unavailable, using file fallback") ;;;
  emit (ConsoleWarn err) ;;;
  modify (set_redis Unavailable).

(** [startRedis()] up to its first [await].  The redis package is taken to
    load and to build the two clients. *)
Definition startRedis (REDIS_ENABLED : bool) : M unit :=
  if negb REDIS_ENABLED then modify (set_redis Disabled)
  else modify (set_redis ConnectingClient).

(** The promise [startRedis] awaits settles: fulfilled when [ok], rejected
    otherwise; the function runs on to its next [await] or to its end. *)
Definition redis_settled (ok : bool) : M unit :=
  phase <- gets redis ;;
  match phase with
  | ConnectingClient =>
      if ok then modify (set_redis ConnectingSubscriber)
      else redis_failed "connect failed"
  | ConnectingSubscriber =>
      if ok then
        modify (set_redisAvailable true) ;;;
        modify (set_redis Subscribing)
      else redis_failed "connect failed"
  | Subscribing =>
      if ok then modify (set_redis Subscribed)
      else redis_failed "subscribe failed"
  | Disabled | Subscribed | Unavailable => ret tt
  end.

(** [redisClient.on('error', ...)] and [redisSubscriber.on('error', ...)];
    without [startRedis] having built the clients there is nothing to fail. *)
Definition on_redis_error (who : string) : M unit :=
  phase <- gets redis ;;
  match phase with
  | Disabled => ret tt
  | _ => console_error who "error" ;;; modify (set_redisAvailable false)
  end.

(** The listener given to [redisSubscriber.subscribe]. *)
Definition on_message (message : string) : M unit :=
  try_catch
    (event <- parse message ;;
     _ <- member event "event" ;;
     broadcast event)
    (λ err, console_error "Redis message parse error:" err ;;;
            console_error "Raw:" message).

(** *** File fallback *)

Definition startsWith (prefix s : string) : bool := String.prefix prefix s.

Definition endsWith (suffix s : string) : bool :=
  let n := String.length s in
  let k := String.length suffix in
  (k <=? n)%nat && String.eqb (String.substring (n - k) k s) suffix.

Definition spool_name (f : string) : bool :=
  startsWith "tournament_" f && endsWith ".json" f.

(** The names in the directory, in the order the file system lists them. *)
Definition listing (st : state) : list string :=
  merge_sort (λ a b, Is_true (dir_order st a b)) (map_to_list (disk st)).*1.

Definition readdirSync : M (list string) :=
  emit FsReaddir ;;;
  ok <- gets dir_ok ;;
  if ok then gets listing
  else throw "ENOENT: no such file or directory, scandir".

Definition statSync (name : string) : M file :=
  emit (FsStat name) ;;;
  entry <- gets (λ st, disk st !! name) ;;
  match entry with
  | Some f => ret f
  | None => throw "ENOENT: no such file or directory, stat"
  end.

Definition readFileSync (name : string) : M string :=
  emit (FsRead name) ;;;
  entry <- gets (λ st, disk st !! name) ;;
  match entry with
  | Some (File _ (Some text) _) => ret text
  | Some (File _ None _) => throw "EACCES: permission denied, open"
  | None => throw "ENOENT: no such file or directory, open"
  end.

Definition unlinkSync (name : string) : M unit :=
  emit (FsUnlink name) ;;;
  entry <- gets (λ st, disk st !! name) ;;
  match entry with
  | Some f =>
      match pinned f with
      | Some message => throw message
      | None => modify (λ st, set_disk (delete name (disk st)) st)
      end
  | None => throw "ENOENT: no such file or directory, unlink"
  end.

(** One turn of [for (const file of files)]. *)
Definition process_file (file : string) : M unit :=
  seen <- gets (λ st, bool_decide (file ∈ processedFiles st)) ;;
  if seen : bool then ret tt
  else
    modify (λ st, set_processedFiles ({[file]} ∪ processedFiles st) st) ;;;
    try_catch
      (stats <- statSync file ;;
       t <- Date_now ;;
       if Qlt_le_dec (inject_Z t - mtimeMs stats) 50 then
         modify (λ st, set_processedFiles (processedFiles st ∖ {[file]}) st)
       else
         raw <- readFileSync file ;;
         event <- parse raw ;;
         _ <- member event "event" ;;
         broadcast event ;;;
         unlinkSync file)
      (λ err, console_error "File event error:" err).

(** The callback of [setInterval(..., 500)]. *)
Definition poll : M unit :=
  available <- gets redisAvailable ;;
  if available : bool then ret tt
  else
    try_catch
      (names <- readdirSync ;;
       for_of (filter (λ f, spool_name f = true) names) process_file)
      (λ err, console_error "Directory watch error:" err).

(** *** The event loop *)

(** What the event loop can dispatch, and what the world does in between. *)
Inductive input :=
| Connection (throws : bool)           (* an upgrade handshake succeeded *)
| WsClose (ws : nat)
| WsError (ws : nat)
| RedisSettled (ok : bool)
| RedisClientError
| RedisSubscriberError
| RedisMessage (message : string)
| Interval
| SocketBecomes (ws : nat) (rs : ready_state) (throws : bool)
| FileWritten (name : string) (f : file)
| FileRemoved (name : string)
| DirectoryBecomes (ok : bool) (order : string → string → bool)
| ClockBecomes (readings : nat → Z).

Definition handle (i : input) : M unit :=
  match i with
  | Connection throws => ws <- new_socket throws ;; on_connection ws
  | WsClose ws =>
      s <- gets (λ st, sockets st !! ws) ;;
      match s with
      | Some s => socket_becomes ws CLOSED (send_throws s) ;;; on_close ws
      | None => ret tt
      end
  | WsError ws => on_error ws
  | RedisSettled ok => redis_settled ok
  | RedisClientError => on_redis_error "Redis client error:"
  | RedisSubscriberError => on_redis_error "Redis subscriber error:"
  | RedisMessage message =>
      phase <- gets redis ;;
      match phase with
      | Subscribing | Subscribed => on_message message
      | _ => ret tt
      end
  | Interval => poll
  | SocketBecomes ws rs throws => socket_becomes ws rs throws
  | FileWritten name f => modify (λ st, set_disk (<[name := f]> (disk st)) st)
  | FileRemoved name => modify (λ st, set_disk (delete name (disk st)) st)
  | DirectoryBecomes ok order =>
      modify (set_dir_ok ok) ;;; modify (set_dir_order order)
  | ClockBecomes readings => modify (set_clock readings)
  end.

(** One callback.  Only the 'connection' callback lets an exception escape
    (the [send] of the connect envelope is not in a [try]), and Node then
    ends the process: such an execution is the run over the inputs up to
    that one.  [step] keeps the state the callback reached. *)
Definition step (st : state) (i : input) : state := exec (handle i) st.

Definition run (inputs : list input) (st : state) : state := fold_left step inputs st.

(** The state when the module has been loaded: empty registry, empty
    Processed-File Set, flag false, and [startRedis()] called. *)
Definition boot (REDIS_ENABLED : bool) (spool : gmap string file) (t : Z) : state :=
  exec (startRedis REDIS_ENABLED)
       (State [] [] false Disabled ∅ spool true String.leb (λ _, t) 0 []).

End Program.
End WebsocketServer.

(** ** The Railway deployment (Redis only) *)

Module Railway.
Section Program.
Context `{JSON}.

(** [function broadcast(event)]: no [try] around [client.send]. *)
Definition broadcast (event : json) : M unit :=
  let message := JSON_stringify event in
  registered <- gets clients ;;
  for_of registered
    (λ client, rs <- get_readyState client ;;
               if is_OPEN rs then ws_send client message else ret tt).

(** The listener given to [redisSubscriber.subscribe]. *)
Definition on_message (message : string) : M unit :=
  try_catch
    (event <- parse message ;;
     tag <- member event "event" ;;
     template tag ;;;
     broadcast event)
    (λ err, console_error "Invalid Redis message:" err).

(** The callbacks of the running server; a failed start-up ends the process
    before any of them can run. *)
Inductive input :=
| Connection (throws : bool)
| WsClose (ws : nat)
| WsError (ws : nat)
| RedisMessage (message : string)
| SocketBecomes (ws : nat) (rs : ready_state) (throws : bool).

Definition handle (i : input) : M unit :=
  match i with
  | Connection throws => ws <- new_socket throws ;; on_connection ws
  | WsClose ws =>
      s <- gets (λ st, sockets st !! ws) ;;
      match s with
      | Some s => socket_becomes ws CLOSED (send_throws s) ;;; on_close ws
      | None => ret tt
      end
  | WsError ws => on_error ws
  | RedisMessage message => on_message message
  | SocketBecomes ws rs throws => socket_becomes ws rs throws
  end.

Definition step (st : state) (i : input) : state := exec (handle i) st.

Definition run (inputs : list input) (st : state) : state := fold_left step inputs st.

Definition boot : state := State [] [] false Subscribed ∅ ∅ true String.leb (λ _, 0%Z) 0 [].

End Program.
End Railway.

(** ** What a client has been sent *)

(** The [ws.send] calls made on socket [ws], oldest first, each with
    whether it returned normally. *)
Definition sends_to (ws : nat) (t : list effect) : list (string * bool) :=
  omap (λ e, match e with
             | WsSend w message ok => if Nat.eqb w ws then Some (message, ok) else None
             | _ => None
             end) t.

(** The messages handed to the transport of socket [ws]. *)
Definition delivered (ws : nat) (t : list effect) : list string :=
  omap (λ '(message, ok), if ok : bool then Some message else None) (sends_to ws t).

(** Which spool file an effect touches. *)
Definition touches (name : string) (e : effect) : bool :=
  match e with
  | FsRead n | FsUnlink n => String.eqb n name
  | _ => false
  end.

(** ** A codec for the examples *)

(** A stand-in for the two built-ins.  The printer writes what
    [JSON.stringify] writes as long as no string needs an escape.  The
    parser agrees with [JSON.parse] on [null], on [7], on the
    match-updated envelope and on the envelope with an object for its
    event tag below, and rejects every other text. *)
Module Fixture.

Definition quote : string := String "034"%char EmptyString.

Fixpoint join (sep : string) (parts : list string) : string :=
  match parts with
  | [] => EmptyString
  | [part] => part
  | part :: rest => part +:+ sep +:+ join sep rest
  end.

Fixpoint print (v : json) : string :=
  match v with
  | JNull => "null"
  | JBool true => "true"
  | JBool false => "false"
  | JNumber literal => literal
  | JString s => quote +:+ s +:+ quote
  | JArray items => "[" +:+ join "," (map print items) +:+ "]"
  | JObject members =>
      "{" +:+ join "," (map (λ member, quote +:+ member.1 +:+ quote +:+ ":" +:+ print member.2)
                          members) +:+ "}"
  end.

Definition match_updated : json :=
  JObject [("event", JString "match_updated");
           ("payload", JObject [("matchId", JNumber "7")])].

Definition match_finished : json :=
  JObject [("event", JString "match_finished");
           ("payload", JObject [("matchId", JNumber "7")])].

(** An envelope whose event tag is an object with a member [toString]. *)
Definition tagged_by_object : json :=
  JObject [("event", JObject [("toString", JNumber "1")]);
           ("payload", JObject [])].

Definition parse_text (text : string) : option json :=
  if String.eqb text "null" then Some JNull
  else if String.eqb text "7" then Some (JNumber "7")
  else if String.eqb text (print match_updated) then Some match_updated
  else if String.eqb text (print tagged_by_object) then Some tagged_by_object
  else None.

#[export] Instance codec : JSON := {| JSON_parse := parse_text; JSON_stringify := print |}.

End Fixture.

(** ** The vocabulary of the properties *)

(** *** Relations a callback maintains *)

(** [m] takes every state to one related to it by [R], however it ends. *)
Definition steady (R : relation state) {A} (m : M A) : Prop :=
  ∀ st, R st (exec m st).

(** The value of a field is left as it was. *)
Definition keeps {X} (field : state → X) : relation state :=
  λ st st', field st' = field st.

(** A property of the state that, once true, stays true. *)
Definition preserved (P : state → Prop) : relation state :=
  λ st st', P st → P st'.

(** The trace is extended, and only by effects satisfying [P]. *)
Definition extends (P : effect → Prop) : relation state :=
  λ st st', ∃ ext, trace st' = trace st ++ ext ∧ Forall P ext.

(** While [pre] holds it keeps holding, and the trace is extended only by
    effects satisfying [P]. *)
Definition guarded (pre : state → Prop) (P : effect → Prop) : relation state :=
  λ st st', pre st → pre st' ∧ ∃ ext, trace st' = trace st ++ ext ∧ Forall P ext.

(** The state without its trace, and with some effects more. *)
Definition untraced (st : state) : state := set_trace [] st.

Definition log (es : list effect) (st : state) : state :=
  set_trace (trace st ++ es) st.

(** *** The registry *)

(** The sockets and the registry. *)
Definition hub (st : state) : list socket * list nat := (sockets st, clients st).

(** The registry holds no socket twice, and [c] is a socket in use. *)
Definition registry_ok (c : nat) (st : state) : Prop :=
  NoDup (clients st) ∧ c < length (sockets st).

(** The inputs that run a connection-accept, close or error handler. *)
Definition lifecycle (i : WebsocketServer.input) : bool :=
  match i with
  | WebsocketServer.Connection _ | WebsocketServer.WsClose _
  | WebsocketServer.WsError _ => true
  | _ => false
  end.

Definition railway_lifecycle (i : Railway.input) : bool :=
  match i with
  | Railway.Connection _ | Railway.WsClose _ | Railway.WsError _ => true
  | _ => false
  end.

(** *** The availability flag *)

(** The two variables [startRedis] and the error listeners write. *)
Definition broker (st : state) : bool * redis_phase := (redisAvailable st, redis st).

(** The flag is up only between the second connect and a failure. *)
Definition flag_sound (st : state) : Prop :=
  redisAvailable st = true → redis st = Subscribing ∨ redis st = Subscribed.

(** The inputs that concern the broker connections. *)
Definition about_redis (i : WebsocketServer.input) : bool :=
  match i with
  | WebsocketServer.RedisSettled _ | WebsocketServer.RedisClientError
  | WebsocketServer.RedisSubscriberError => true
  | _ => false
  end.

(** *** One broadcast, as a function of the state it starts in *)

Definition is_send (e : effect) : bool :=
  match e with WsSend _ _ _ => true | _ => false end.

(** [broadcast] gets past its opening lines: [event.event] can be read
    (the event is not null) and converted to a string for the log. *)
Definition loggable (event : json) : bool :=
  match event with
  | JNull => false
  | JObject members =>
      match assoc "event" members with
      | Some tag => stringifies tag
      | None => true
      end
  | _ => true
  end.

(** How the loop of [broadcast] finds a client: [Some true] when it is OPEN
    and [send] returns, [Some false] when it is OPEN and [send] throws,
    [None] when it is not OPEN. *)
Definition outcome_of (st : state) (client : nat) : option bool :=
  match sockets st !! client with
  | Some s => if is_OPEN (readyState s) then Some (negb (send_throws s)) else None
  | None => None
  end.

Definition attempt (st : state) (message : string) (client : nat) : list effect :=
  match outcome_of st client with
  | Some true => [WsSend client message true]
  | Some false => [WsSend client message false;
                   ConsoleError "Failed to send to client:" "send failed"]
  | None => []
  end.

Definition tally_step (tally : nat * nat) (o : option bool) : nat * nat :=
  match o with
  | Some true => (S (fst tally), snd tally)
  | _ => (fst tally, S (snd tally))
  end.

(** The [send] call one broadcast of [message] makes on socket [c]. *)
Definition offered (st : state) (message : string) (c : nat) : list (string * bool) :=
  if bool_decide (c ∈ clients st) then
    match outcome_of st c with
    | Some ok => [(message, ok)]
    | None => []
    end
  else [].

(** Socket [c] is registered, OPEN, and its [send] returns. *)
Definition receives (st : state) (c : nat) : bool :=
  bool_decide (c ∈ clients st) && bool_decide (outcome_of st c = Some true).

(** Socket [c] is registered and OPEN. *)
Definition registered_open (st : state) (c : nat) : bool :=
  bool_decide (c ∈ clients st) &&
  match sockets st !! c with
  | Some s => is_OPEN (readyState s)
  | None => false
  end.

(** Every socket the server was handed has been sent the connect envelope
    before anything else, and nothing was sent to handles not yet in use. *)
Definition greeted `{JSON} (st : state) : Prop :=
  ∀ ws,
    (ws < length (sockets st) →
     ∃ ok rest, sends_to ws (trace st) = (JSON_stringify connected_envelope, ok) :: rest) ∧
    (length (sockets st) ≤ ws → sends_to ws (trace st) = []).

(** *** Sequences of broadcast calls *)

(** A call of [broadcast], or something else the event loop does in
    between. *)
Inductive call :=
| Broadcast (event : json)
| Other (i : WebsocketServer.input).

(** The inputs that do not themselves call [broadcast]. *)
Definition quiet (c : call) : bool :=
  match c with
  | Other (WebsocketServer.RedisMessage _) | Other WebsocketServer.Interval => false
  | _ => true
  end.

Definition play `{JSON} (st : state) (c : call) : state :=
  match c with
  | Broadcast event => exec (WebsocketServer.broadcast event) st
  | Other i => WebsocketServer.step st i
  end.

(** The envelopes broadcast while [c] could receive them, in call order. *)
Fixpoint expected `{JSON} (c : nat) (calls : list call) (st : state) : list string :=
  match calls with
  | [] => []
  | call :: rest =>
      match call with
      | Broadcast event =>
          if loggable event && receives st c then [JSON_stringify event] else []
      | Other _ => []
      end ++ expected c rest (play st call)
  end.

(** Socket [c] is registered and OPEN before every call and at the end. *)
Fixpoint stays_open `{JSON} (c : nat) (calls : list call) (st : state) : bool :=
  match calls with
  | [] => registered_open st c
  | call :: rest => registered_open st c && stays_open c rest (play st call)
  end.

(** Socket [c] can receive before every call and at the end. *)
Fixpoint stays_receiving `{JSON} (c : nat) (calls : list call) (st : state) : bool :=
  match calls with
  | [] => receives st c
  | call :: rest => receives st c && stays_receiving c rest (play st call)
  end.

(** The envelopes of the broadcast calls, serialized, in call order; a
    call that throws in its opening lines sends nothing. *)
Definition broadcasts `{JSON} (calls : list call) : list string :=
  omap (λ c, match c with
             | Broadcast event => if loggable event then Some (JSON_stringify event) else None
             | Other _ => None
             end) calls.

(** *** The spool *)

(** The Processed-File Set only gains members. *)
Definition grows : relation state :=
  λ st st', processedFiles st ⊆ processedFiles st'.

(** The spool file [name] is marked as processed. *)
Definition seen (name : string) (st : state) : Prop := name ∈ processedFiles st.

(** The spool file [name] is not marked and holds [f]. *)
Definition waiting (name : string) (f : file) (st : state) : Prop :=
  (name ∉ processedFiles st) ∧ disk st !! name = Some f.

(** One call of [Date.now()] has been made. *)
Definition tick (st : state) : state := set_reads (S (reads st)) st.

(** The clock and how often it has been read. *)
Definition time (st : state) : (nat → Z) * nat := (clock st, reads st).

(** The file's last-modified time is inside the grace window at [t]. *)
Definition young (f : file) (t : Z) : Prop := (inject_Z t - mtimeMs f < 50)%Q.

(** The file's last-modified time is past the grace window at [t]. *)
Definition aged (f : file) (t : Z) : Prop := (50 <= inject_Z t - mtimeMs f)%Q.

(** The effect neither reads nor deletes the spool file [name]. *)
Definition spares (name : string) (e : effect) : Prop := touches name e = false.

(** A text that does not decode: [JSON.parse] throws, or it yields a value
    whose event tag cannot be taken (null, on which reading [event.event]
    throws, or a tag that has no string conversion). *)
Definition undecodable `{JSON} (text : string) : Prop :=
  JSON_parse text = None ∨
  ∃ event, JSON_parse text = Some event ∧ loggable event = false.

(** The names a scan goes through, in the order of the listing. *)
Definition spool_files (st : state) : list string :=
  filter (λ f, WebsocketServer.spool_name f = true) (WebsocketServer.listing st).

(** Every reading of the clock that a scan started now can make satisfies
    [P]: a scan calls [Date.now()] at most once for each name it goes
    through. *)
Definition during_scan (P : Z → Prop) (st : state) : Prop :=
  ∀ k, reads st ≤ k < reads st + length (spool_files st) → P (clock st k).

(** The effects of the turn that consumes the spool file [name] holding
    the serialized envelope [message], started in state [st]. *)
Definition consumption (st : state) (name message : string) : list effect :=
  let tally := fold_left tally_step (outcome_of st <$> clients st) (0, 0) in
  [FsStat name; FsRead name; Broadcasting message] ++
  flat_map (attempt st message) (clients st) ++
  [BroadcastComplete (fst tally) (snd tally) (length (clients st)); FsUnlink name].

(** The inputs between two scans that leave the spool file [name] alone. *)
Definition calm (name : string) (i : WebsocketServer.input) : bool :=
  match i with
  | WebsocketServer.Interval => false
  | WebsocketServer.FileWritten n _ | WebsocketServer.FileRemoved n => negb (String.eqb n name)
  | _ => true
  end.

(** ** The rest of the two files *)

(** *** Configuration of [websocket-server.js] *)

(** A JavaScript number, as far as truthiness goes. *)
Inductive number :=
| NaN
| Num (q : Q)
| Infinity (negative : bool).

(** [Number(text)], the built-in, on the text of an environment variable. *)
Class NUMBER := Number : string → number.

(** [Boolean(n)]: NaN and zero are falsy. *)
Definition truthy_number (n : number) : bool :=
  match n with
  | NaN => false
  | Num q => negb (Qeq_bool q 0)
  | Infinity _ => true
  end.

(** An entry of [process.env]: a string, or undefined ([None]).  The empty
    string and undefined are falsy. *)
Definition truthy_env (v : option string) : bool :=
  match v with
  | Some s => negb (String.eqb s EmptyString)
  | None => false
  end.

Module Config.
Section Program.
Context `{NUMBER}.

(** [Number(process.env.X)]; [Number(undefined)] is NaN. *)
Definition Number_env (v : option string) : number :=
  match v with
  | Some s => Number s
  | None => NaN
  end.

(** [const PORT = Number(process.env.WEBSOCKET_PORT) || 8081] *)
Definition PORT (WEBSOCKET_PORT : option string) : number :=
  let n := Number_env WEBSOCKET_PORT in
  if truthy_number n then n else Num 8081.

(** [const REDIS_HOST = process.env.REDIS_HOST || '127.0.0.1'] *)
Definition REDIS_HOST (env_host : option string) : string :=
  match env_host with
  | Some s => if truthy_env env_host then s else "127.0.0.1"
  | None => "127.0.0.1"
  end.

(** [const REDIS_PORT = process.env.REDIS_PORT ? Number(process.env.REDIS_PORT) : 6379] *)
Definition REDIS_PORT (env_port : option string) : number :=
  if truthy_env env_port then Number_env env_port else Num 6379.

(** [const REDIS_ENABLED = Boolean(REDIS_HOST && REDIS_PORT)] *)
Definition REDIS_ENABLED (env_host env_port : option string) : bool :=
  if truthy_env (Some (REDIS_HOST env_host))
  then truthy_number (REDIS_PORT env_port)
  else false.

Definition REDIS_RETRY_INTERVAL : Z := 5000.

(** [reconnectStrategy: retries => Math.min(retries * REDIS_RETRY_INTERVAL, 30000)] *)
Definition reconnectStrategy (retries : Z) : Z :=
  Z.min (retries * REDIS_RETRY_INTERVAL) 30000.

End Program.
End Config.

(** *** More vocabulary *)

(** The registry is a set of sockets that exist. *)
Definition registry_sound (st : state) : Prop :=
  NoDup (clients st) ∧ Forall (λ c, c < length (sockets st)) (clients st).

(** Socket [ws] exists and is not registered. *)
Definition unregistered (ws : nat) (st : state) : Prop :=
  ws < length (sockets st) ∧ ws ∉ clients st.

(** The effect is not a [send] on socket [ws]. *)
Definition not_to (ws : nat) (e : effect) : Prop := sends_to ws [e] = [].

(** [startRedis] is past the point where it raises the flag. *)
Definition past_connects (st : state) : Prop :=
  redis st ≠ ConnectingClient ∧ redis st ≠ ConnectingSubscriber.

(** The [readFileSync] and [unlinkSync] calls on the spool file [name], in
    order. *)
Definition touched (name : string) (t : list effect) : list effect :=
  filter (λ e, touches name e = true) t.

(** The file has not been read, or it has been read once and is marked, or
    read once, then deleted once, and is marked. *)
Definition read_once (name : string) (st : state) : Prop :=
  touched name (trace st) = [] ∨
  (seen name st ∧
   (touched name (trace st) = [FsRead name] ∨
    touched name (trace st) = [FsRead name; FsUnlink name])).

(** The spool file [name] is marked and the calls on it so far are [l]. *)
Definition marked_after (name : string) (l : list effect) (st : state) : Prop :=
  seen name st ∧ touched name (trace st) = l.

(** From a state satisfying [P] to one satisfying [Q]. *)
Definition leads (P Q : state → Prop) : relation state :=
  λ st st', P st → Q st'.

(** The effect is no file-system call on [name]. *)
Definition ignores (name : string) (e : effect) : Prop :=
  match e with
  | FsStat n | FsRead n | FsUnlink n => n ≠ name
  | _ => True
  end.

(** What the scan knows of [name] is what it knew in [st0]. *)
Definition as_in (st0 : state) (name : string) (st : state) : Prop :=
  disk st !! name = disk st0 !! name ∧
  (name ∈ processedFiles st ↔ name ∈ processedFiles st0).

(** The [send] calls of the loop of the Railway [broadcast] over the
    clients [cs], and whether one of them threw. *)
Fixpoint railway_attempts (st : state) (message : string) (cs : list nat)
    : list effect * bool :=
  match cs with
  | [] => ([], false)
  | c :: rest =>
      match outcome_of st c with
      | Some true =>
          let r := railway_attempts st message rest in
          (WsSend c message true :: fst r, snd r)
      | Some false => ([WsSend c message false], true)
      | None => railway_attempts st message rest
      end
  end.

(** No registered socket that is OPEN has a [send] that throws. *)
Definition no_send_throws (st : state) : Prop :=
  ∀ c, c ∈ clients st → outcome_of st c ≠ Some false.

(** A [send] that returned. *)
Definition returned (e : effect) : bool :=
  match e with
  | WsSend _ _ ok => ok
  | _ => false
  end.

(** * Properties *)

(** ** The model at work *)

(** The broker delivers an envelope: every open client receives it after
    its connect envelope. *)
Example broker_message_reaches_clients :
  let text := Fixture.print Fixture.match_updated in
  let st := WebsocketServer.run (H := Fixture.codec)
              [WebsocketServer.RedisSettled true; WebsocketServer.RedisSettled true;
               WebsocketServer.RedisSettled true; WebsocketServer.Connection false;
               WebsocketServer.Connection false; WebsocketServer.RedisMessage text]
              (WebsocketServer.boot true ∅ 0) in
  delivered 0 (trace st) = [Fixture.print connected_envelope; text] ∧
  delivered 1 (trace st) = [Fixture.print connected_envelope; text].
Proof. by vm_compute. Qed.

(** The broker is unreachable and a spool file is written: the next scan
    past the grace window hands it to the client and deletes it. *)
Example spool_file_reaches_clients :
  let text := Fixture.print Fixture.match_updated in
  let st := WebsocketServer.run (H := Fixture.codec)
              [WebsocketServer.RedisSettled false; WebsocketServer.Connection false;
               WebsocketServer.FileWritten "tournament_42.json" (File 1000 (Some text) None);
               WebsocketServer.ClockBecomes (λ _, 1020%Z); WebsocketServer.Interval;
               WebsocketServer.ClockBecomes (λ _, 1520%Z); WebsocketServer.Interval]
              (WebsocketServer.boot true ∅ 0) in
  delivered 0 (trace st) = [Fixture.print connected_envelope; text] ∧
  disk st !! "tournament_42.json" = None ∧
  filter (λ e, bool_decide (touches "tournament_42.json" e = true)) (trace st) =
    [FsRead "tournament_42.json"; FsUnlink "tournament_42.json"].
Proof. by vm_compute. Qed.

(** A message that does not parse is logged and not forwarded. *)
Example garbage_is_not_forwarded :
  let st := WebsocketServer.run (H := Fixture.codec)
              [WebsocketServer.RedisSettled true; WebsocketServer.RedisSettled true;
               WebsocketServer.RedisSettled true; WebsocketServer.Connection false;
               WebsocketServer.RedisMessage "{oops"]
              (WebsocketServer.boot true ∅ 0) in
  delivered 0 (trace st) = [Fixture.print connected_envelope] ∧
  last (trace st) = Some (ConsoleError "Raw:" "{oops").
Proof. by vm_compute. Qed.

(** A message whose event tag has no string conversion: [broadcast] of
    [websocket-server.js] throws while it logs the tag, the Railway
    listener throws one step earlier, and no client is sent anything. *)
Example unprintable_tag_is_not_forwarded :
  let text := Fixture.print Fixture.tagged_by_object in
  let st := WebsocketServer.run (H := Fixture.codec)
              [WebsocketServer.RedisSettled true; WebsocketServer.RedisSettled true;
               WebsocketServer.RedisSettled true; WebsocketServer.Connection false;
               WebsocketServer.RedisMessage text]
              (WebsocketServer.boot true ∅ 0) in
  let railway := Railway.run (H := Fixture.codec)
                   [Railway.Connection false; Railway.RedisMessage text] Railway.boot in
  text = "{" +:+ Fixture.quote +:+ "event" +:+ Fixture.quote +:+ ":{" +:+
         Fixture.quote +:+ "toString" +:+ Fixture.quote +:+ ":1}," +:+
         Fixture.quote +:+ "payload" +:+ Fixture.quote +:+ ":{}}" ∧
  delivered 0 (trace st) = [Fixture.print connected_envelope] ∧
  last (trace st) = Some (ConsoleError "Raw:" text) ∧
  delivered 0 (trace railway) = [Fixture.print connected_envelope] ∧
  last (trace railway) =
    Some (ConsoleError "Invalid Redis message:" "Cannot convert object to primitive value").
Proof. by vm_compute. Qed.

(** The same envelope in a spool file: the file is read, the broadcast
    throws, and the file is neither forwarded nor deleted. *)
Example unprintable_tag_file_is_not_consumed :
  let name := "tournament_9.json" in
  let f := File 0 (Some (Fixture.print Fixture.tagged_by_object)) None in
  let st := WebsocketServer.run (H := Fixture.codec)
              [WebsocketServer.Connection false; WebsocketServer.Interval]
              (WebsocketServer.boot false {[ name := f ]} 1000) in
  delivered 0 (trace st) = [Fixture.print connected_envelope] ∧
  disk st !! name = Some f ∧
  filter (λ e, bool_decide (touches name e = true)) (trace st) = [FsRead name] ∧
  last (trace st) =
    Some (ConsoleError "File event error:" "Cannot convert object to primitive value").
Proof. by vm_compute. Qed.

(** Files whose names do not follow the convention are not looked at. *)
Example other_files_are_ignored :
  WebsocketServer.spool_name "tournament_42.json" = true ∧
  WebsocketServer.spool_name "tournament_42.json.tmp" = false ∧
  WebsocketServer.spool_name "match_42.json" = false ∧
  WebsocketServer.spool_name ".json" = false.
Proof. by vm_compute. Qed.

(** ** The algebra of [steady] *)

Section Steady.
Context (R : relation state) `{!PreOrder R}.

Lemma steady_ret {A} (a : A) : steady R (ret a).
Proof. intros st. reflexivity. Qed.

Lemma steady_throw {A} (e : string) : steady R (@throw A e).
Proof. intros st. reflexivity. Qed.

Lemma steady_gets {A} (f : state → A) : steady R (gets f).
Proof. intros st. reflexivity. Qed.

Lemma steady_modify (f : state → state) : (∀ st, R st (f st)) → steady R (modify f).
Proof. intros Hf st. apply Hf. Qed.

Lemma steady_bind {A B} (m : M A) (k : A → M B) :
  steady R m → (∀ a, steady R (k a)) → steady R (bind m k).
Proof.
  intros Hm Hk st. specialize (Hm st). unfold exec, bind in *.
  destruct (m st) as [st' [a|e]]; simpl in *; [|done].
  etransitivity; [exact Hm|]. apply (Hk a st').
Qed.

Lemma steady_try_catch {A} (body : M A) (handler : string → M A) :
  steady R body → (∀ e, steady R (handler e)) → steady R (try_catch body handler).
Proof.
  intros Hm Hk st. specialize (Hm st). unfold exec, try_catch in *.
  destruct (body st) as [st' [a|e]]; simpl in *; [done|].
  etransitivity; [exact Hm|]. apply (Hk e st').
Qed.

Lemma steady_for_of {A} (xs : list A) (body : A → M unit) :
  (∀ x, steady R (body x)) → steady R (for_of xs body).
Proof.
  intros Hb. induction xs as [|x xs IH]; simpl.
  - apply steady_ret.
  - apply steady_bind; [apply Hb | intros _; exact IH].
Qed.

Lemma steady_for_of_with {A B} (xs : list A) (body : B → A → M B) (acc : B) :
  (∀ b x, steady R (body b x)) → steady R (for_of_with xs body acc).
Proof.
  intros Hb. revert acc. induction xs as [|x xs IH]; intros acc; simpl.
  - apply steady_ret.
  - apply steady_bind; [apply Hb | intros b; apply IH].
Qed.

End Steady.

#[export] Instance keeps_preorder {X} (field : state → X) : PreOrder (keeps field).
Proof. split; [by intros a | intros a b c Hab Hbc; unfold keeps in *; congruence]. Qed.

#[export] Instance grows_preorder : PreOrder grows.
Proof. split; unfold grows; [by intros a | intros a b c Hab Hbc; set_solver]. Qed.

#[export] Instance extends_preorder (P : effect → Prop) : PreOrder (extends P).
Proof.
  split.
  - intros st. exists []. by rewrite app_nil_r.
  - intros a b c (e1 & H1 & F1) (e2 & H2 & F2). exists (e1 ++ e2). split.
    + by rewrite H2, H1, app_assoc.
    + by apply Forall_app.
Qed.

#[export] Instance preserved_preorder (P : state → Prop) : PreOrder (preserved P).
Proof. split; unfold preserved; [by intros a | intros a b c Hab Hbc; auto]. Qed.

(** Walks through the statements of a callback, leaving one goal for each
    assignment to the state. *)
Ltac steady_step :=
  lazymatch goal with
  | |- steady _ (ret _) => apply steady_ret; tc_solve
  | |- steady _ (throw _) => apply steady_throw; tc_solve
  | |- steady _ (gets _) => apply steady_gets; tc_solve
  | |- steady _ (bind _ _) => apply steady_bind; [tc_solve | | intros ?]
  | |- steady _ (try_catch _ _) => apply steady_try_catch; [tc_solve | | intros ?]
  | |- steady _ (for_of _ _) => apply steady_for_of; [tc_solve | intros ?]
  | |- steady _ (for_of_with _ _ _) => apply steady_for_of_with; [tc_solve | intros ? ?]
  | |- steady _ (modify _) => apply steady_modify; intros ?
  | |- steady _ (match ?x with _ => _ end) => destruct x
  | |- steady _ (let _ := _ in _) => cbv zeta
  end.

Ltac steady_walk := repeat (steady_step; try assumption).

(** Closes a goal about one field after one assignment. *)
Ltac field_done :=
  unfold keeps, grows; simpl; repeat (case_match; simpl); first [done | set_solver].

(** ** The registry is only read by the broadcast engine *)

Ltac unfold_statements :=
  unfold WebsocketServer.on_message, Railway.on_message,
    WebsocketServer.poll, WebsocketServer.process_file,
    WebsocketServer.redis_settled, WebsocketServer.redis_failed,
    WebsocketServer.on_redis_error, WebsocketServer.startRedis,
    WebsocketServer.broadcast, WebsocketServer.deliver, Railway.broadcast,
    WebsocketServer.readdirSync, WebsocketServer.statSync,
    WebsocketServer.readFileSync, WebsocketServer.unlinkSync,
    on_connection, on_error, on_close, new_socket, attach_listeners,
    socket_becomes, clients_add, clients_delete, Date_now,
    ws_send, parse, member, template, console_error, emit, get_readyState.

Section Registry.
Context `{JSON}.

Lemma broadcast_keeps_clients event : steady (keeps clients) (WebsocketServer.broadcast event).
Proof. unfold_statements. steady_walk; done. Qed.

Lemma railway_broadcast_keeps_clients event : steady (keeps clients) (Railway.broadcast event).
Proof. unfold_statements. steady_walk; done. Qed.

Lemma poll_keeps_clients : steady (keeps clients) WebsocketServer.poll.
Proof.
  unfold WebsocketServer.poll, WebsocketServer.process_file.
  steady_walk; try apply broadcast_keeps_clients; unfold_statements; steady_walk; done.
Qed.

Lemma on_message_keeps_clients message :
  steady (keeps clients) (WebsocketServer.on_message message).
Proof.
  unfold WebsocketServer.on_message.
  steady_walk; try apply broadcast_keeps_clients; unfold_statements; steady_walk; done.
Qed.

Lemma handle_keeps_clients i :
  lifecycle i = false → steady (keeps clients) (WebsocketServer.handle i).
Proof.
  destruct i; simpl; try discriminate; intros _;
    try apply poll_keeps_clients;
    steady_walk; try apply on_message_keeps_clients;
    unfold_statements; steady_walk; field_done.
Qed.

Lemma railway_handle_keeps_clients i :
  railway_lifecycle i = false → steady (keeps clients) (Railway.handle i).
Proof.
  destruct i; simpl; try discriminate; intros _.
  - unfold Railway.on_message.
    steady_walk; try apply railway_broadcast_keeps_clients; unfold_statements;
      steady_walk; done.
  - unfold_statements; steady_walk; field_done.
Qed.

End Registry.

(** C10.  [broadcast] leaves the set [clients] exactly as it found it, in
    both deployments and whatever the sends do; an input of the event loop
    that changes [clients] is a connection, a close or an error. *)
Theorem broadcast_never_mutates_registry `{JSON} :
  (∀ event st, clients (exec (WebsocketServer.broadcast event) st) = clients st) ∧
  (∀ event st, clients (exec (Railway.broadcast event) st) = clients st) ∧
  (∀ i st, lifecycle i = true ∨ clients (WebsocketServer.step st i) = clients st) ∧
  (∀ i st, railway_lifecycle i = true ∨ clients (Railway.step st i) = clients st).
Proof.
  split; [|split; [|split]].
  - intros event st. apply broadcast_keeps_clients.
  - intros event st. apply railway_broadcast_keeps_clients.
  - intros i st. destruct (lifecycle i) eqn:Hi; [by left | right].
    by apply handle_keeps_clients.
  - intros i st. destruct (railway_lifecycle i) eqn:Hi; [by left | right].
    by apply railway_handle_keeps_clients.
Qed.

(** ** The broadcast engine only sends and logs *)

Section Frame.
Context `{JSON}.

Lemma broadcast_only_traces event : steady (keeps untraced) (WebsocketServer.broadcast event).
Proof. unfold_statements. steady_walk; done. Qed.

Lemma railway_broadcast_only_traces event : steady (keeps untraced) (Railway.broadcast event).
Proof. unfold_statements. steady_walk; done. Qed.

(** What holds of the state without its trace is preserved by a statement
    that only extends the trace. *)
Lemma only_traces_preserved {A} (m : M A) (P : state → Prop) :
  (∀ st t, P st → P (set_trace t st)) →
  steady (keeps untraced) m → steady (preserved P) m.
Proof.
  intros HP Hm st Hst. specialize (Hm st). unfold keeps, untraced in Hm.
  destruct (exec m st) as [a b c d e f g o h r t'] eqn:E.
  destruct st as [a0 b0 c0 d0 e0 f0 g0 o0 h0 r0 t0].
  unfold set_trace in Hm; simpl in Hm. injection Hm as -> -> -> -> -> -> -> -> -> ->.
  exact (HP _ t' Hst).
Qed.

End Frame.

(** ** The availability gate of the poller *)

(** C2.  When [redisAvailable] is true the interval callback returns at
    once: the state, and with it the spool directory and the trace of file
    system calls, is what it was, whatever the directory holds. *)
Theorem poll_is_gated `{JSON} (st : state) :
  redisAvailable st = true →
  WebsocketServer.poll st = (st, Normal tt) ∧
  WebsocketServer.step st WebsocketServer.Interval = st ∧
  disk (WebsocketServer.step st WebsocketServer.Interval) = disk st ∧
  trace (WebsocketServer.step st WebsocketServer.Interval) = trace st.
Proof.
  intros Hflag.
  assert (WebsocketServer.poll st = (st, Normal tt)) as Hpoll.
  { unfold WebsocketServer.poll, bind, gets. by rewrite Hflag. }
  unfold WebsocketServer.step, exec; simpl. by rewrite Hpoll.
Qed.

Lemma poll_is_gated_witness :
  let st := WebsocketServer.run (H := Fixture.codec)
              [WebsocketServer.RedisSettled true; WebsocketServer.RedisSettled true]
              (WebsocketServer.boot true
                 {[ "tournament_1.json" :=
                      File 0 (Some (Fixture.print Fixture.match_updated)) None ]} 1000) in
  redisAvailable st = true ∧
  disk st !! "tournament_1.json" =
    Some (File 0 (Some (Fixture.print Fixture.match_updated)) None) ∧
  WebsocketServer.step (H := Fixture.codec) st WebsocketServer.Interval = st.
Proof.
  intros st.
  assert (redisAvailable st = true) as Hflag by reflexivity.
  split; [exact Hflag|]. split; [apply lookup_singleton_eq|].
  exact (proj1 (proj2 (poll_is_gated (H := Fixture.codec) st Hflag))).
Defined.

(** ** The Processed-File Set *)

Section Processed.
Context `{JSON}.

Lemma process_file_grows file : steady grows (WebsocketServer.process_file file).
Proof.
  intros st. unfold WebsocketServer.process_file, exec, bind at 1, gets at 1; simpl.
  destruct (bool_decide (file ∈ processedFiles st)) eqn:Hseen; [done|].
  apply bool_decide_eq_false in Hseen.
  lazymatch goal with
  | |- grows _ (fst (bind ?a ?k st)) =>
      change (fst (bind a k st)) with (exec (bind a k) st);
      cut (steady (preserved (λ s, processedFiles st ⊆ processedFiles s)) (bind a k))
  end.
  { intros S. by apply S. }
  steady_walk.
  all: try (apply only_traces_preserved; [done | apply broadcast_only_traces]).
  all: unfold_statements; steady_walk.
  all: unfold preserved; simpl; repeat (case_match; simpl); set_solver.
Qed.

Lemma poll_grows : steady grows WebsocketServer.poll.
Proof.
  unfold WebsocketServer.poll. steady_walk; try apply process_file_grows.
  all: unfold_statements; steady_walk; field_done.
Qed.

Lemma broadcast_grows event : steady grows (WebsocketServer.broadcast event).
Proof. unfold_statements. steady_walk; field_done. Qed.

Lemma handle_grows i : steady grows (WebsocketServer.handle i).
Proof.
  destruct i; simpl; try apply poll_grows.
  all: unfold WebsocketServer.on_message; steady_walk; try apply broadcast_grows.
  all: unfold_statements; steady_walk; field_done.
Qed.

Lemma run_grows inputs st : grows st (WebsocketServer.run inputs st).
Proof.
  revert st. induction inputs as [|i inputs IH]; intros st; simpl; [done|].
  etransitivity; [apply (handle_grows i st) | apply IH].
Qed.

End Processed.

(** C9.  Every member of [processedFiles] before a turn of the file loop,
    before a scan, or before any callback of the event loop, is still a
    member after it; hence the set never shrinks along a run. *)
Theorem processed_files_grow `{JSON} :
  (∀ file st, processedFiles st ⊆ processedFiles (exec (WebsocketServer.process_file file) st)) ∧
  (∀ st, processedFiles st ⊆ processedFiles (exec WebsocketServer.poll st)) ∧
  (∀ i st, processedFiles st ⊆ processedFiles (WebsocketServer.step st i)) ∧
  (∀ inputs st, processedFiles st ⊆ processedFiles (WebsocketServer.run inputs st)).
Proof.
  split; [|split; [|split]].
  - intros file st. apply process_file_grows.
  - intros st. apply poll_grows.
  - intros i st. apply handle_grows.
  - intros inputs st. apply run_grows.
Qed.

(** ** The availability flag and [startRedis] *)

Section Flag.
Context `{JSON}.

Lemma poll_keeps_broker : steady (keeps broker) WebsocketServer.poll.
Proof.
  unfold WebsocketServer.poll, WebsocketServer.process_file.
  steady_walk.
  all: unfold_statements; steady_walk; field_done.
Qed.

Lemma handle_keeps_broker i :
  about_redis i = false → steady (keeps broker) (WebsocketServer.handle i).
Proof.
  destruct i; simpl; try discriminate; intros _; try apply poll_keeps_broker.
  all: unfold_statements; steady_walk; field_done.
Qed.

Lemma redis_settled_sound ok st :
  flag_sound st → flag_sound (exec (WebsocketServer.redis_settled ok) st).
Proof.
  unfold flag_sound, exec, WebsocketServer.redis_settled, WebsocketServer.redis_failed,
    bind, gets, modify, emit.
  destruct (redis st) eqn:Hphase, ok; simpl; rewrite ?Hphase; intuition congruence.
Qed.

Lemma on_redis_error_sound who st :
  flag_sound st → flag_sound (exec (WebsocketServer.on_redis_error who) st).
Proof.
  unfold flag_sound, exec, WebsocketServer.on_redis_error, console_error,
    bind, gets, modify, emit.
  destruct (redis st) eqn:Hphase; simpl; rewrite ?Hphase; intuition congruence.
Qed.

Lemma step_sound i st : flag_sound st → flag_sound (WebsocketServer.step st i).
Proof.
  intros Hst. destruct (about_redis i) eqn:Hi.
  - destruct i; try discriminate; unfold WebsocketServer.step; simpl.
    + by apply redis_settled_sound.
    + by apply on_redis_error_sound.
    + by apply on_redis_error_sound.
  - pose proof (handle_keeps_broker i Hi st) as Hk.
    unfold keeps, broker in Hk. injection Hk as Hflag Hphase.
    unfold flag_sound, WebsocketServer.step in *. rewrite Hflag, Hphase. exact Hst.
Qed.

Lemma boot_sound enabled spool t : flag_sound (WebsocketServer.boot enabled spool t).
Proof. unfold flag_sound. by destruct enabled. Qed.

Lemma run_sound inputs st : flag_sound st → flag_sound (WebsocketServer.run inputs st).
Proof.
  revert st. induction inputs as [|i inputs IH]; intros st Hst; simpl; [done|].
  apply IH. by apply step_sound.
Qed.

End Flag.

(** C7, as the code has it.  Along every run from start-up the flag is true
    only when both connects have been fulfilled and nothing has failed
    since: [startRedis] is then waiting for [subscribe] or has finished.
    The flag is raised by the fulfilment of the second connect, before the
    subscribe call is made, and a rejected subscribe lowers it again. *)
Theorem flag_true_only_after_both_connects `{JSON} :
  (∀ enabled spool t inputs,
     let st := WebsocketServer.run inputs (WebsocketServer.boot enabled spool t) in
     redisAvailable st = true → redis st = Subscribing ∨ redis st = Subscribed) ∧
  (∀ st, redis st = ConnectingSubscriber →
     let st' := WebsocketServer.step st (WebsocketServer.RedisSettled true) in
     redisAvailable st' = true ∧ redis st' = Subscribing) ∧
  (∀ st, redis st = Subscribing →
     let st' := WebsocketServer.step st (WebsocketServer.RedisSettled false) in
     redisAvailable st' = false ∧ redis st' = Unavailable).
Proof.
  split; [|split].
  - intros enabled spool t inputs. apply run_sound, boot_sound.
  - intros st Hphase. unfold WebsocketServer.step, exec; simpl.
    unfold WebsocketServer.redis_settled, bind, gets. by rewrite Hphase.
  - intros st Hphase. unfold WebsocketServer.step, exec; simpl.
    unfold WebsocketServer.redis_settled, bind, gets. by rewrite Hphase.
Qed.

(** At this input both connects have been fulfilled and the subscribe is
    pending; the flag is already true. *)
Lemma flag_true_while_subscribe_pending :
  let st := WebsocketServer.run (H := Fixture.codec)
              [WebsocketServer.RedisSettled true; WebsocketServer.RedisSettled true]
              (WebsocketServer.boot true ∅ 0) in
  redis st = Subscribing ∧ redisAvailable st = true.
Proof. by vm_compute. Qed.

Lemma flag_true_only_after_both_connects_witness :
  let st := WebsocketServer.run (H := Fixture.codec)
              [WebsocketServer.RedisSettled true; WebsocketServer.RedisSettled true;
               WebsocketServer.RedisSettled true]
              (WebsocketServer.boot true ∅ 0) in
  let pending := WebsocketServer.run (H := Fixture.codec)
              [WebsocketServer.RedisSettled true]
              (WebsocketServer.boot true ∅ 0) in
  (redisAvailable st = true ∧ (redis st = Subscribing ∨ redis st = Subscribed)) ∧
  (redis pending = ConnectingSubscriber ∧
   redisAvailable (WebsocketServer.step (H := Fixture.codec) pending
                     (WebsocketServer.RedisSettled true)) = true).
Proof.
  intros st pending.
  pose proof (flag_true_only_after_both_connects (H := Fixture.codec)) as (Hinv & Hup & _).
  split.
  - split; [reflexivity|].
    apply (Hinv true ∅ 0%Z
             [WebsocketServer.RedisSettled true; WebsocketServer.RedisSettled true;
              WebsocketServer.RedisSettled true]).
    reflexivity.
  - split; [reflexivity|]. apply (Hup pending). reflexivity.
Defined.

(** ** The connect envelope comes first *)

Ltac unfold_callbacks :=
  unfold WebsocketServer.on_message, Railway.on_message,
    WebsocketServer.poll, WebsocketServer.process_file,
    WebsocketServer.redis_settled, WebsocketServer.redis_failed,
    WebsocketServer.on_redis_error, WebsocketServer.startRedis,
    WebsocketServer.broadcast, WebsocketServer.deliver, Railway.broadcast,
    WebsocketServer.readdirSync, WebsocketServer.statSync,
    WebsocketServer.readFileSync, WebsocketServer.unlinkSync,
    on_error, on_close, attach_listeners,
    socket_becomes, clients_add, clients_delete, Date_now,
    parse, member, template, console_error, get_readyState.

Lemma sends_to_app ws t1 t2 : sends_to ws (t1 ++ t2) = sends_to ws t1 ++ sends_to ws t2.
Proof. apply omap_app. Qed.

Lemma sends_to_other ws e : is_send e = false → sends_to ws [e] = [].
Proof. by destruct e. Qed.

Section Greeting.
Context `{JSON}.

Lemma emit_greeted e : is_send e = false → steady (preserved greeted) (emit e).
Proof.
  intros He st Hst ws. unfold exec, emit, modify; simpl.
  rewrite sends_to_app, (sends_to_other ws e He), app_nil_r. apply Hst.
Qed.

Lemma ws_send_greeted ws message : steady (preserved greeted) (ws_send ws message).
Proof.
  intros st Hst. unfold exec, ws_send, bind, gets; simpl.
  destruct (sockets st !! ws) as [s|] eqn:Hs; [|done].
  apply lookup_lt_Some in Hs.
  assert (∀ ok, greeted (set_trace (trace st ++ [WsSend ws message ok]) st)) as Hsend.
  { intros ok w. simpl. rewrite sends_to_app. destruct (Hst w) as [Hin Hout]. split.
    - intros Hw. destruct (Hin Hw) as (ok0 & rest & ->). eexists _, _. reflexivity.
    - intros Hw. rewrite (Hout Hw). simpl.
      destruct (Nat.eqb_spec ws w) as [->|Hne]; [lia | done]. }
  destruct (send_throws s); simpl; apply Hsend.
Qed.

Lemma set_sockets_greeted ws s st :
  greeted st → greeted (set_sockets (<[ws := s]> (sockets st)) st).
Proof. intros Hst w. simpl. rewrite length_insert. apply Hst. Qed.

Ltac greeted_walk :=
  unfold_callbacks; steady_walk;
  try apply ws_send_greeted; try (apply emit_greeted; reflexivity);
  try (unfold preserved; simpl; repeat (case_match; simpl);
       auto using set_sockets_greeted; done).

Lemma broadcast_greeted event : steady (preserved greeted) (WebsocketServer.broadcast event).
Proof. greeted_walk. Qed.

Lemma railway_broadcast_greeted event : steady (preserved greeted) (Railway.broadcast event).
Proof. greeted_walk. Qed.

(** The 'connection' callback on a socket just made: one socket more, one
    [send] of the connect envelope on it, and the registry extended. *)
Lemma connection_spec throws st :
  ∃ l, exec (ws <- new_socket throws ;; on_connection ws) st =
       State (sockets st ++ [Socket OPEN throws l])
         (clients (exec (clients_add (length (sockets st))) st))
         (redisAvailable st) (redis st) (processedFiles st) (disk st)
         (dir_ok st) (dir_order st) (clock st) (reads st)
         (trace st ++ [WsSend (length (sockets st))
                         (JSON_stringify connected_envelope) (negb throws)]).
Proof.
  unfold exec, new_socket, on_connection, ws_send, clients_add, attach_listeners,
    emit, bind, gets, modify; simpl.
  case_bool_decide; simpl; rewrite lookup_app_r, Nat.sub_diag by done; simpl;
    destruct throws; simpl; eauto;
    rewrite lookup_app_r, Nat.sub_diag by done; simpl;
    rewrite insert_app_r_alt, Nat.sub_diag by done; simpl; eauto.
Qed.

Lemma connection_greeted throws :
  steady (preserved greeted) (ws <- new_socket throws ;; on_connection ws).
Proof.
  intros st Hst. destruct (connection_spec throws st) as [l ->].
  intros ws. simpl. rewrite length_app, sends_to_app. simpl.
  destruct (Hst ws) as [Hin Hout]. destruct (Nat.eqb_spec (length (sockets st)) ws) as [<-|Hne].
  - rewrite Hout by done. split; [eauto | lia].
  - rewrite app_nil_r. split; [intros Hw; apply Hin; lia | intros Hw; apply Hout; lia].
Qed.

Lemma handle_greeted i : steady (preserved greeted) (WebsocketServer.handle i).
Proof.
  destruct i; simpl; try apply connection_greeted; greeted_walk.
Qed.

Lemma railway_handle_greeted i : steady (preserved greeted) (Railway.handle i).
Proof.
  destruct i; simpl; try apply connection_greeted; greeted_walk.
Qed.

Lemma run_greeted inputs st : greeted st → greeted (WebsocketServer.run inputs st).
Proof.
  revert st. induction inputs as [|i inputs IH]; intros st Hst; simpl; [done|].
  apply IH. by apply handle_greeted.
Qed.

Lemma railway_run_greeted inputs st : greeted st → greeted (Railway.run inputs st).
Proof.
  revert st. induction inputs as [|i inputs IH]; intros st Hst; simpl; [done|].
  apply IH. by apply railway_handle_greeted.
Qed.

Lemma boot_greeted enabled spool t : greeted (WebsocketServer.boot enabled spool t).
Proof. intros ws. destruct enabled; simpl; split; [lia | done | lia | done]. Qed.

Lemma railway_boot_greeted : greeted Railway.boot.
Proof. intros ws. simpl; split; [lia | done]. Qed.

End Greeting.

(** C8.  In both deployments, along every run from start-up, the calls of
    [ws.send] on a socket whose handshake has succeeded begin with the
    connect envelope; every envelope broadcast to it comes after. *)
Theorem connected_envelope_is_first `{JSON} (ws : nat) :
  (∀ inputs enabled spool t,
     let st := WebsocketServer.run inputs (WebsocketServer.boot enabled spool t) in
     ws < length (sockets st) →
     ∃ ok rest, sends_to ws (trace st) = (JSON_stringify connected_envelope, ok) :: rest) ∧
  (∀ inputs,
     let st := Railway.run inputs Railway.boot in
     ws < length (sockets st) →
     ∃ ok rest, sends_to ws (trace st) = (JSON_stringify connected_envelope, ok) :: rest).
Proof.
  split.
  - intros inputs enabled spool t st Hws.
    by apply (run_greeted inputs _ (boot_greeted enabled spool t) ws).
  - intros inputs st Hws.
    by apply (railway_run_greeted inputs _ railway_boot_greeted ws).
Qed.

Lemma connected_envelope_is_first_witness :
  let inputs := [WebsocketServer.RedisSettled true; WebsocketServer.RedisSettled true;
                 WebsocketServer.Connection false;
                 WebsocketServer.RedisMessage (Fixture.print Fixture.match_updated)] in
  let st := WebsocketServer.run (H := Fixture.codec) inputs (WebsocketServer.boot true ∅ 0) in
  0 < length (sockets st) ∧
  ∃ ok rest,
    sends_to 0 (trace st) =
      (JSON_stringify (JSON := Fixture.codec) connected_envelope, ok) :: rest.
Proof.
  intros inputs st. split; [vm_compute; lia|].
  apply (proj1 (connected_envelope_is_first (H := Fixture.codec) 0) inputs true ∅ 0%Z).
  vm_compute; lia.
Defined.

(** ** One broadcast, in closed form *)

Lemma log_nil st : log [] st = st.
Proof. destruct st. unfold log, set_trace; simpl. by rewrite app_nil_r. Qed.

Lemma log_log a b st : log b (log a st) = log (a ++ b) st.
Proof. unfold log, set_trace; simpl. by rewrite app_assoc. Qed.

Section Broadcast.
Context `{JSON}.

Lemma deliver_spec message tally client st :
  WebsocketServer.deliver message tally client st =
    (log (attempt st message client) st, Normal (tally_step tally (outcome_of st client))).
Proof.
  unfold WebsocketServer.deliver, attempt, outcome_of, get_readyState, ws_send, try_catch,
    console_error, emit, bind, gets, modify, ret, throw.
  destruct (sockets st !! client) as [[rs throws l]|] eqn:Hs; simpl;
    [destruct rs, throws; simpl|]; rewrite ?Hs; simpl; rewrite ?log_nil; try done.
  unfold log, set_trace; simpl. by rewrite <- app_assoc.
Qed.

Lemma loop_spec message cs tally st :
  for_of_with cs (WebsocketServer.deliver message) tally st =
    (log (flat_map (attempt st message) cs) st,
     Normal (fold_left tally_step (outcome_of st <$> cs) tally)).
Proof.
  revert tally st. induction cs as [|c cs IH]; intros tally st; simpl.
  - by rewrite log_nil.
  - unfold bind at 1. rewrite deliver_spec, IH, log_log. done.
Qed.

(** The opening lines of [broadcast]: the event tag is read and put in a
    template literal. *)
Lemma tag_spec event :
  loggable event = true →
  ∃ tag, member event "event" = ret tag ∧ template tag = ret tt.
Proof.
  intros Hlog. destruct event; try discriminate; try (by eexists; split).
  simpl in Hlog. exists (assoc "event" members). split; [done|].
  unfold template. destruct (assoc "event" members); [by rewrite Hlog | done].
Qed.

Lemma tag_fails event :
  loggable event = false →
  ∃ detail,
    member event "event" = throw detail ∨
    ∃ tag, member event "event" = ret tag ∧ template tag = throw detail.
Proof.
  intros Hlog. destruct event; try discriminate.
  - exists "Cannot read properties of null". by left.
  - simpl in Hlog. exists "Cannot convert object to primitive value". right.
    exists (assoc "event" members). split; [done|].
    unfold template. destruct (assoc "event" members); [by rewrite Hlog | done].
Qed.

(** [broadcast] of an event whose tag can be logged always returns, and
    its whole effect is a stretch of trace computed from the state it
    started in. *)
Lemma broadcast_spec event st :
  loggable event = true →
  WebsocketServer.broadcast event st =
    (let message := JSON_stringify event in
     let tally := fold_left tally_step (outcome_of st <$> clients st) (0, 0) in
     log ([Broadcasting message] ++ flat_map (attempt st message) (clients st) ++
          [BroadcastComplete (fst tally) (snd tally) (length (clients st))]) st,
     Normal tt).
Proof.
  intros Hlog. unfold WebsocketServer.broadcast.
  destruct (tag_spec event Hlog) as (tag & Hmember & Htemplate).
  rewrite Hmember. unfold bind at 1, ret at 1. rewrite Htemplate.
  unfold bind at 1, ret at 1. unfold bind at 1, emit, modify.
  unfold bind at 1, gets at 1. simpl clients.
  unfold bind at 1. rewrite loop_spec. unfold bind, gets, modify; simpl.
  change (set_trace (trace st ++ [Broadcasting (JSON_stringify event)]) st)
    with (log [Broadcasting (JSON_stringify event)] st).
  fold (log [Broadcasting (JSON_stringify event)] st).
  f_equal. unfold log, set_trace; simpl. by rewrite <- !app_assoc.
Qed.

(** Any other event makes [broadcast] throw before it has done anything. *)
Lemma broadcast_throws event detail st :
  (member event "event" = throw detail ∨
   ∃ tag, member event "event" = ret tag ∧ template tag = throw detail) →
  WebsocketServer.broadcast event st = (st, Throw detail).
Proof.
  intros [Hm | (tag & Hm & Ht)]; unfold WebsocketServer.broadcast; cbv zeta; rewrite Hm;
    [done|].
  unfold bind at 1, ret at 1. by rewrite Ht.
Qed.

Lemma broadcast_fails event st :
  loggable event = false →
  ∃ detail, WebsocketServer.broadcast event st = (st, Throw detail).
Proof.
  intros Hlog. destruct (tag_fails event Hlog) as (detail & Hcase).
  exists detail. by apply broadcast_throws.
Qed.

End Broadcast.

Lemma sends_to_attempt c st message c' :
  sends_to c (attempt st message c') =
    if bool_decide (c' = c) then
      match outcome_of st c with Some ok => [(message, ok)] | None => [] end
    else [].
Proof.
  unfold attempt. case_bool_decide as Hc.
  - subst c'. destruct (outcome_of st c) as [[]|]; simpl; by rewrite ?Nat.eqb_refl.
  - destruct (outcome_of st c') as [[]|]; simpl; try done;
      by destruct (Nat.eqb_spec c' c).
Qed.

Lemma sends_to_attempts c st message cs :
  NoDup cs →
  sends_to c (flat_map (attempt st message) cs) =
    if bool_decide (c ∈ cs) then
      match outcome_of st c with Some ok => [(message, ok)] | None => [] end
    else [].
Proof.
  induction 1 as [|c' cs Hnotin Hnodup IH]; [done|].
  simpl. rewrite sends_to_app, sends_to_attempt, IH.
  destruct (decide (c' = c)) as [->|Hc].
  - rewrite (bool_decide_eq_true_2 (c = c)) by done.
    rewrite (bool_decide_eq_false_2 (c ∈ cs)) by done.
    rewrite (bool_decide_eq_true_2 (c ∈ c :: cs)) by left.
    by rewrite app_nil_r.
  - rewrite (bool_decide_eq_false_2 (c' = c)) by done. simpl.
    destruct (decide (c ∈ cs)) as [Hin|Hin].
    + rewrite (bool_decide_eq_true_2 (c ∈ cs)) by done.
      by rewrite (bool_decide_eq_true_2 (c ∈ c' :: cs)) by by right.
    + rewrite (bool_decide_eq_false_2 (c ∈ cs)) by done.
      rewrite (bool_decide_eq_false_2 (c ∈ c' :: cs)); [done|].
      rewrite elem_of_cons. by intros [?|?].
Qed.

Section BroadcastSends.
Context `{JSON}.

(** What one broadcast adds to the [send] calls on socket [c]. *)
Lemma sends_to_broadcast c event st :
  loggable event = true → NoDup (clients st) →
  sends_to c (trace (exec (WebsocketServer.broadcast event) st)) =
    sends_to c (trace st) ++ offered st (JSON_stringify event) c.
Proof.
  intros Hlog Hnodup. unfold exec. rewrite broadcast_spec by done.
  unfold log, set_trace; cbn [fst trace].
  rewrite !sends_to_app, sends_to_attempts by done. simpl. by rewrite app_nil_r.
Qed.

Lemma broadcast_state event st :
  loggable event = true →
  ∃ es, exec (WebsocketServer.broadcast event) st = log es st.
Proof. intros Hlog. unfold exec. rewrite broadcast_spec by done. simpl. eauto. Qed.

End BroadcastSends.

Lemma delivered_app ws t1 t2 : delivered ws (t1 ++ t2) = delivered ws t1 ++ delivered ws t2.
Proof. unfold delivered. by rewrite sends_to_app, omap_app. Qed.

(** ** A failed send *)

Lemma tally_step_failed o tally : snd tally ≤ snd (tally_step tally o).
Proof. destruct o as [[]|]; simpl; lia. Qed.

Lemma tally_failed_mono os tally : snd tally ≤ snd (fold_left tally_step os tally).
Proof.
  revert tally. induction os as [|o os IH]; intros tally; simpl; [done|].
  etransitivity; [apply (tally_step_failed o) | apply IH].
Qed.

Lemma tally_counts_failure os tally :
  Some false ∈ os → snd tally < snd (fold_left tally_step os tally).
Proof.
  revert tally. induction os as [|o os IH]; intros tally Hin; [by apply elem_of_nil in Hin|].
  apply elem_of_cons in Hin as [<-|Hin]; simpl.
  - pose proof (tally_failed_mono os (fst tally, S (snd tally))). simpl in *. lia.
  - pose proof (tally_step_failed o tally). specialize (IH (tally_step tally o) Hin). lia.
Qed.

Lemma tally_total os tally :
  fst (fold_left tally_step os tally) + snd (fold_left tally_step os tally) =
  fst tally + snd tally + length os.
Proof.
  revert tally. induction os as [|o os IH]; intros tally; simpl; [lia|].
  rewrite IH. destruct o as [[]|]; simpl; lia.
Qed.

(** C3, as the code has it.  A registered connection whose [send] throws
    during a broadcast that gets to its send loop (the event tag can be
    logged) is logged and counted as failed, is sent nothing, and is still
    registered, with the same socket, when [broadcast] returns; the next
    such broadcast calls [send] on it again.  The Railway [broadcast]
    leaves it registered as well. *)
Theorem failed_send_keeps_connection `{JSON} (st : state) (event : json) (c : nat) :
  loggable event = true →
  NoDup (clients st) →
  c ∈ clients st →
  outcome_of st c = Some false →
  let st' := exec (WebsocketServer.broadcast event) st in
  c ∈ clients st' ∧
  outcome_of st' c = Some false ∧
  sends_to c (trace st') = sends_to c (trace st) ++ [(JSON_stringify event, false)] ∧
  delivered c (trace st') = delivered c (trace st) ∧
  (∃ sent failed,
     last (trace st') = Some (BroadcastComplete sent failed (length (clients st))) ∧
     0 < failed ∧ sent + failed = length (clients st)) ∧
  (∀ event', loggable event' = true →
     sends_to c (trace (exec (WebsocketServer.broadcast event') st')) =
       sends_to c (trace st') ++ [(JSON_stringify event', false)]) ∧
  c ∈ clients (exec (Railway.broadcast event) st).
Proof.
  intros Hlog Hnodup Hin Hc st'.
  assert (clients st' = clients st) as Hclients by apply broadcast_keeps_clients.
  assert (outcome_of st' c = Some false) as Hc'.
  { destruct (broadcast_state event st Hlog) as [es Hes]. unfold st'. by rewrite Hes. }
  assert (∀ s e, loggable e = true → NoDup (clients s) → c ∈ clients s →
            outcome_of s c = Some false →
            sends_to c (trace (exec (WebsocketServer.broadcast e) s)) =
              sends_to c (trace s) ++ [(JSON_stringify e, false)]) as Hsend.
  { intros s e He Hs Hcs Ho. rewrite sends_to_broadcast by done.
    unfold offered. by rewrite bool_decide_eq_true_2, Ho by done. }
  assert (sends_to c (trace st') = sends_to c (trace st) ++ [(JSON_stringify event, false)])
    as Hsends by by apply Hsend.
  split; [by rewrite Hclients|]. split; [done|]. split; [done|].
  split; [unfold delivered; rewrite Hsends, omap_app; simpl; by rewrite app_nil_r|].
  split.
  - unfold st', exec. rewrite broadcast_spec by done. cbv zeta.
    unfold log, set_trace; cbn [fst trace].
    eexists _, _. split; [by rewrite !app_assoc, last_snoc|]. split.
    + apply (tally_counts_failure _ (0, 0)). rewrite <- Hc. by apply list_elem_of_fmap_2.
    + rewrite tally_total. simpl. by rewrite length_fmap.
  - split.
    + intros event' Hlog'. apply Hsend; try done; by rewrite Hclients.
    + by rewrite (railway_broadcast_keeps_clients event st).
Qed.

(** A socket that is OPEN but whose [send] throws, then recovers. *)
Lemma failing_client_stays_and_is_served_later :
  let st0 := WebsocketServer.run (H := Fixture.codec)
               [WebsocketServer.Connection false; WebsocketServer.SocketBecomes 0 OPEN true]
               (WebsocketServer.boot false ∅ 0) in
  let st1 := exec (WebsocketServer.broadcast (H := Fixture.codec) Fixture.match_updated) st0 in
  let st2 := exec (WebsocketServer.broadcast (H := Fixture.codec) Fixture.match_finished)
               (WebsocketServer.step (H := Fixture.codec) st1
                  (WebsocketServer.SocketBecomes 0 OPEN false)) in
  outcome_of st0 0 = Some false ∧
  sends_to 0 (trace st1) =
    [(Fixture.print connected_envelope, true); (Fixture.print Fixture.match_updated, false)] ∧
  clients st1 = [0] ∧
  delivered 0 (trace st2) =
    [Fixture.print connected_envelope; Fixture.print Fixture.match_finished].
Proof. by vm_compute. Qed.

Lemma failed_send_keeps_connection_witness :
  let st0 := WebsocketServer.run (H := Fixture.codec)
               [WebsocketServer.Connection false; WebsocketServer.SocketBecomes 0 OPEN true]
               (WebsocketServer.boot false ∅ 0) in
  let st1 := exec (WebsocketServer.broadcast (H := Fixture.codec) Fixture.match_updated) st0 in
  (loggable Fixture.match_updated = true ∧ NoDup (clients st0) ∧ 0 ∈ clients st0 ∧
   outcome_of st0 0 = Some false) ∧
  0 ∈ clients st1 ∧ delivered 0 (trace st1) = delivered 0 (trace st0).
Proof.
  intros st0 st1.
  assert (loggable Fixture.match_updated = true) as H1 by reflexivity.
  assert (NoDup (clients st0)) as H2 by (vm_compute; apply NoDup_singleton).
  assert (0 ∈ clients st0) as H3 by (vm_compute; apply list_elem_of_here).
  assert (outcome_of st0 0 = Some false) as H4 by reflexivity.
  split; [done|].
  destruct (failed_send_keeps_connection (H := Fixture.codec) st0 Fixture.match_updated 0
              H1 H2 H3 H4)
    as (Hin & _ & _ & Hdel & _).
  split; [exact Hin | exact Hdel].
Defined.

(** ** What a client receives over a sequence of broadcasts *)

Lemma sends_to_quiet c es : Forall (λ e, is_send e = false) es → sends_to c es = [].
Proof.
  induction 1 as [|e es He _ IH]; [done|].
  change (e :: es) with ([e] ++ es). by rewrite sends_to_app, IH, sends_to_other.
Qed.

Section Sequence.
Context `{JSON}.

#[local] Abbreviation silent := (extends (λ e, is_send e = false)).

Lemma emit_silent e : is_send e = false → steady silent (emit e).
Proof. intros He st. exists [e]. split; [done | by constructor]. Qed.

Lemma same_trace_silent st st' : trace st' = trace st → silent st st'.
Proof. intros Ht. exists []. by rewrite Ht, app_nil_r. Qed.

(** A callback that is neither a connection nor a transport input calls
    [send] on no socket. *)
Lemma handle_silent i :
  quiet (Other i) = true →
  (∀ throws, i ≠ WebsocketServer.Connection throws) →
  steady silent (WebsocketServer.handle i).
Proof.
  intros Hq Hconn. destruct i; simpl in *; try discriminate; try (by destruct (Hconn throws)).
  all: unfold WebsocketServer.redis_settled, WebsocketServer.redis_failed,
         WebsocketServer.on_redis_error, on_error, on_close, socket_becomes,
         clients_delete, console_error.
  all: repeat first [ steady_step | apply emit_silent; reflexivity ].
  all: apply same_trace_silent; repeat case_match; reflexivity.
Qed.

Lemma quiet_step_sends c i st :
  quiet (Other i) = true → c < length (sockets st) →
  sends_to c (trace (WebsocketServer.step st i)) = sends_to c (trace st).
Proof.
  intros Hq Hc.
  assert ((∃ throws, i = WebsocketServer.Connection throws) ∨
          ∀ throws, i ≠ WebsocketServer.Connection throws) as [[throws ->]|Hconn]
    by (destruct i; eauto).
  - unfold WebsocketServer.step; simpl WebsocketServer.handle.
    destruct (connection_spec throws st) as [l ->]. simpl.
    rewrite sends_to_app. simpl.
    destruct (Nat.eqb_spec (length (sockets st)) c); [lia | by rewrite app_nil_r].
  - destruct (handle_silent i Hq Hconn st) as (ext & Hext & Hsilent).
    unfold WebsocketServer.step. rewrite Hext, sends_to_app, (sends_to_quiet c ext Hsilent).
    by rewrite app_nil_r.
Qed.

Lemma assignment_registry_ok c st st' :
  (clients st' = clients st ∨
   (∃ ws, (ws ∉ clients st) ∧ clients st' = clients st ++ [ws]) ∨
   (∃ ws, clients st' = filter (λ x, x ≠ ws) (clients st))) →
  length (sockets st) ≤ length (sockets st') →
  preserved (registry_ok c) st st'.
Proof.
  intros Hclients Hsockets [Hnodup Hc]. split; [|lia].
  destruct Hclients as [->|[(ws & Hws & ->)|(ws & ->)]]; [done| |by apply NoDup_filter].
  apply NoDup_app. split; [done|]. split; [|apply NoDup_singleton].
  intros x Hx ->%list_elem_of_singleton. done.
Qed.

Lemma handle_registry_ok c i : steady (preserved (registry_ok c)) (WebsocketServer.handle i).
Proof.
  destruct i; simpl; unfold_statements; steady_walk.
  all: apply assignment_registry_ok; simpl; repeat (case_match; simpl);
    rewrite ?length_insert, ?length_app; try lia; eauto.
  right; left. eexists; split; [|done]. by eapply bool_decide_eq_false_1.
Qed.

Lemma broadcast_registry_ok c event :
  steady (preserved (registry_ok c)) (WebsocketServer.broadcast event).
Proof.
  unfold_statements; steady_walk.
  all: apply assignment_registry_ok; simpl; eauto.
Qed.

Lemma play_registry_ok c call st : registry_ok c st → registry_ok c (play st call).
Proof.
  destruct call as [event|i]; simpl.
  - apply broadcast_registry_ok.
  - apply handle_registry_ok.
Qed.

Lemma delivered_play c call st :
  registry_ok c st → quiet call = true →
  delivered c (trace (play st call)) =
    delivered c (trace st) ++
    match call with
    | Broadcast event =>
        if loggable event && receives st c then [JSON_stringify event] else []
    | Other _ => []
    end.
Proof.
  intros [Hnodup Hc] Hq. destruct call as [event|i]; simpl.
  - destruct (loggable event) eqn:Hlog; simpl.
    2: { destruct (broadcast_fails event st Hlog) as [detail Hthrow].
         unfold exec. rewrite Hthrow. simpl. by rewrite app_nil_r. }
    + unfold delivered. rewrite sends_to_broadcast, omap_app by done. f_equal.
      unfold offered, receives. destruct (bool_decide (c ∈ clients st)); simpl; [|done].
      by destruct (outcome_of st c) as [[]|].
  - unfold delivered. rewrite quiet_step_sends by done. by rewrite app_nil_r.
Qed.

Lemma delivered_run c calls st :
  registry_ok c st → forallb quiet calls = true →
  delivered c (trace (fold_left play calls st)) = delivered c (trace st) ++ expected c calls st.
Proof.
  revert st. induction calls as [|call calls IH]; intros st Hok Hq; simpl.
  - by rewrite app_nil_r.
  - apply andb_prop in Hq as [Hq Hqs].
    rewrite IH by (by try apply play_registry_ok). rewrite delivered_play by done.
    by rewrite app_assoc.
Qed.

Lemma expected_when_receiving c calls st :
  stays_receiving c calls st = true → expected c calls st = broadcasts calls.
Proof.
  revert st. induction calls as [|call calls IH]; intros st Hr; simpl; [done|].
  simpl in Hr. apply andb_prop in Hr as [Hr Hrs]. rewrite (IH _ Hrs), Hr.
  destruct call as [event|i]; [|done]. unfold broadcasts; simpl. by destruct (loggable event).
Qed.

End Sequence.

(** C1, as the code has it.  Over any sequence of [broadcast] calls and of
    events that change the registry and the sockets in between, a connected
    client receives exactly the envelopes of the calls that got to their
    send loop while it was registered, its socket was OPEN and its [send]
    returned, in call order; a call whose event tag cannot be logged throws
    before it sends anything.  A client for which that holds throughout
    receives the envelopes of all the calls that got to their send loop. *)
Theorem client_receives_in_order `{JSON} (c : nat) (calls : list call) (st : state) :
  NoDup (clients st) →
  c < length (sockets st) →
  forallb quiet calls = true →
  delivered c (trace (fold_left play calls st)) = delivered c (trace st) ++ expected c calls st ∧
  (stays_receiving c calls st = true →
   delivered c (trace (fold_left play calls st)) = delivered c (trace st) ++ broadcasts calls).
Proof.
  intros Hnodup Hc Hq.
  assert (delivered c (trace (fold_left play calls st)) =
          delivered c (trace st) ++ expected c calls st) as Hd
    by by apply delivered_run.
  split; [done|]. intros Hr. by rewrite Hd, expected_when_receiving.
Qed.

(** The socket of client 0 is registered and OPEN throughout; its [send]
    throws during the first of two broadcasts, and that envelope is lost. *)
Lemma open_client_misses_envelope :
  let st0 := WebsocketServer.run (H := Fixture.codec)
               [WebsocketServer.Connection false; WebsocketServer.SocketBecomes 0 OPEN true]
               (WebsocketServer.boot false ∅ 0) in
  let calls := [Broadcast Fixture.match_updated;
                Other (WebsocketServer.SocketBecomes 0 OPEN false);
                Broadcast Fixture.match_finished] in
  let st := fold_left (play (H := Fixture.codec)) calls st0 in
  stays_open (H := Fixture.codec) 0 calls st0 = true ∧
  broadcasts (H := Fixture.codec) calls =
    [Fixture.print Fixture.match_updated; Fixture.print Fixture.match_finished] ∧
  delivered 0 (trace st) =
    delivered 0 (trace st0) ++ [Fixture.print Fixture.match_finished] ∧
  delivered 0 (trace st) ≠ delivered 0 (trace st0) ++ broadcasts (H := Fixture.codec) calls.
Proof. by vm_compute. Qed.

Lemma client_receives_in_order_witness :
  let st0 := WebsocketServer.run (H := Fixture.codec)
               [WebsocketServer.Connection false; WebsocketServer.Connection false;
                WebsocketServer.SocketBecomes 1 OPEN true]
               (WebsocketServer.boot false ∅ 0) in
  let calls := [Broadcast Fixture.match_updated;
                Other (WebsocketServer.WsClose 1);
                Broadcast Fixture.match_finished] in
  (NoDup (clients st0) ∧ 0 < length (sockets st0) ∧ forallb quiet calls = true ∧
   stays_receiving (H := Fixture.codec) 0 calls st0 = true) ∧
  delivered 0 (trace (fold_left (play (H := Fixture.codec)) calls st0)) =
    delivered 0 (trace st0) ++
    [Fixture.print Fixture.match_updated; Fixture.print Fixture.match_finished].
Proof.
  intros st0 calls.
  assert (NoDup (clients st0)) as H1.
  { vm_compute. apply NoDup_cons. split; [|apply NoDup_singleton].
    intros Hin%list_elem_of_singleton. discriminate. }
  assert (0 < length (sockets st0)) as H2 by (vm_compute; lia).
  assert (forallb quiet calls = true) as H3 by reflexivity.
  assert (stays_receiving (H := Fixture.codec) 0 calls st0 = true) as H4 by (by vm_compute).
  split; [done|].
  exact (proj2 (client_receives_in_order (H := Fixture.codec) 0 calls st0 H1 H2 H3) H4).
Defined.

(** ** One failing client and the others *)

(** In [websocket-server.js] a broadcast of an envelope always runs to its
    end, and a registered client that is OPEN and whose own [send] returns
    is handed the envelope whatever happens to the sends on the others. *)
Lemma broadcast_isolates_failures `{JSON} (st : state) (event : json) (c : nat) :
  loggable event = true →
  NoDup (clients st) →
  receives st c = true →
  snd (WebsocketServer.broadcast event st) = Normal tt ∧
  delivered c (trace (exec (WebsocketServer.broadcast event) st)) =
    delivered c (trace st) ++ [JSON_stringify event].
Proof.
  intros Hlog Hnodup Hr. split; [by rewrite broadcast_spec|].
  unfold delivered. rewrite sends_to_broadcast, omap_app by done. f_equal.
  unfold receives in Hr. apply andb_prop in Hr as [Hin Ho].
  apply bool_decide_eq_true_1 in Ho. unfold offered. by rewrite Hin, Ho.
Qed.

(** In the Railway deployment the loop ends at the first client that is
    OPEN and whose [send] throws; here it is the first one registered. *)
Lemma railway_broadcast_first_failure `{JSON} (st : state) (event : json) (c : nat) rest :
  clients st = c :: rest →
  outcome_of st c = Some false →
  Railway.broadcast event st =
    (log [WsSend c (JSON_stringify event) false] st, Throw "send failed").
Proof.
  intros Hclients Hc. unfold Railway.broadcast, bind at 1, gets at 1. rewrite Hclients.
  simpl. unfold bind at 1, bind at 1, get_readyState, gets at 1.
  unfold outcome_of in Hc. destruct (sockets st !! c) as [[rs throws l]|] eqn:Hs; [|done].
  simpl in Hc. destruct rs; try done. simpl.
  unfold ws_send, bind, gets, emit, modify, throw. rewrite Hs. simpl.
  injection Hc as Hc. apply negb_false_iff in Hc. by rewrite Hc.
Qed.

(** C4 at its failing input.  Two clients are connected to the Railway
    deployment and the [send] of the first throws: the exception leaves the
    loop of [broadcast], the second client is never reached, and the message
    listener reports an invalid message.  On the same state [broadcast] of
    [websocket-server.js] catches the exception and serves the second. *)
Theorem railway_broadcast_aborts_on_first_failure :
  let st := Railway.run (H := Fixture.codec)
              [Railway.Connection false; Railway.Connection false;
               Railway.SocketBecomes 0 OPEN true]
              Railway.boot in
  let text := Fixture.print Fixture.match_updated in
  let st' := Railway.step (H := Fixture.codec) st (Railway.RedisMessage text) in
  clients st = [0; 1] ∧
  outcome_of st 0 = Some false ∧
  receives st 1 = true ∧
  Railway.broadcast (H := Fixture.codec) Fixture.match_updated st =
    (log [WsSend 0 text false] st, Throw "send failed") ∧
  delivered 1 (trace st') = delivered 1 (trace st) ∧
  last (trace st') = Some (ConsoleError "Invalid Redis message:" "send failed") ∧
  delivered 1 (trace (exec (WebsocketServer.broadcast (H := Fixture.codec)
                              Fixture.match_updated) st)) =
    delivered 1 (trace st) ++ [text].
Proof. by vm_compute. Qed.

(** ** The spool poller *)

#[export] Instance guarded_preorder pre P : PreOrder (guarded pre P).
Proof.
  split.
  - intros st Hpre. split; [done|]. exists []. by rewrite app_nil_r.
  - intros a b c Hab Hbc Hpre. destruct (Hab Hpre) as (Hb & e1 & H1 & F1).
    destruct (Hbc Hb) as (Hc & e2 & H2 & F2). split; [done|].
    exists (e1 ++ e2). split; [by rewrite H2, H1, app_assoc | by apply Forall_app].
Qed.

Lemma guarded_emit pre P e :
  (∀ st t, pre st → pre (set_trace t st)) → P e → steady (guarded pre P) (emit e).
Proof.
  intros Hpre He st Hst. split; [by apply Hpre|]. exists [e]. split; [done | by constructor].
Qed.

Lemma guarded_modify pre P f :
  (∀ st, trace (f st) = trace st) → (∀ st, pre st → pre (f st)) →
  steady (guarded pre P) (modify f).
Proof.
  intros Ht Hpre st Hst. split; [by apply Hpre|]. exists []. unfold exec, modify; simpl.
  by rewrite Ht, app_nil_r.
Qed.

Ltac guarded_walk :=
  repeat lazymatch goal with
    | |- steady _ (emit _) => apply guarded_emit
    | |- steady (guarded _ _) (modify _) =>
        apply guarded_modify;
        [intros ?; simpl; repeat case_match; reflexivity | intros ? ?]
    | _ => steady_step
    end.

Lemma try_catch_returns (body : M unit) handler st :
  (∀ e s, snd (handler e s) = Normal tt) → snd (try_catch body handler st) = Normal tt.
Proof. intros Hh. unfold try_catch. by destruct (body st) as [s [[]|e]]. Qed.

Lemma for_of_returns {A} (xs : list A) (body : A → M unit) st :
  (∀ x s, snd (body x s) = Normal tt) →
  for_of xs body st = (fold_left (λ s x, exec (body x) s) xs st, Normal tt).
Proof.
  intros Hb. revert st. induction xs as [|x xs IH]; intros st; simpl; [done|].
  unfold bind. specialize (Hb x st). unfold exec.
  destruct (body x st) as [s [[]|e]]; simpl in *; [apply IH | discriminate].
Qed.

Lemma leads_bind {A B} (P Q R : state → Prop) (m : M A) (k : A → M B) :
  steady (leads P Q) m → (∀ s, Q s → R s) → (∀ a, steady (leads Q R) (k a)) →
  steady (leads P R) (bind m k).
Proof.
  intros Hm Hexit Hk st HP. specialize (Hm st HP). unfold exec, bind in *.
  destruct (m st) as [s [a|e]]; simpl in *; [apply (Hk a s Hm) | by apply Hexit].
Qed.

Lemma leads_try_catch {A} (P Q R : state → Prop) (body : M A) handler :
  steady (leads P Q) body → (∀ s, Q s → R s) → (∀ e, steady (leads Q R) (handler e)) →
  steady (leads P R) (try_catch body handler).
Proof.
  intros Hm Hexit Hk st HP. specialize (Hm st HP). unfold exec, try_catch in *.
  destruct (body st) as [s [a|e]]; simpl in *; [by apply Hexit | apply (Hk e s Hm)].
Qed.

Lemma kept_leads {A X} (field : state → X) (Q : X → Prop) (m : M A) :
  steady (keeps field) m →
  steady (leads (λ s, Q (field s)) (λ s, Q (field s))) m.
Proof. intros Hm st HQ. by rewrite (Hm st). Qed.

Section Poller.
Context `{JSON}.

Lemma process_file_returns name st :
  snd (WebsocketServer.process_file name st) = Normal tt.
Proof.
  unfold WebsocketServer.process_file, bind at 1, gets at 1.
  destruct (bool_decide _); [done|]. unfold bind at 1, modify at 1.
  by apply try_catch_returns.
Qed.

Lemma poll_returns st : snd (WebsocketServer.poll st) = Normal tt.
Proof.
  unfold WebsocketServer.poll, bind at 1, gets at 1.
  destruct (redisAvailable st); [done|]. by apply try_catch_returns.
Qed.

(** A turn for a file already marked does nothing at all. *)
Lemma process_file_seen name st :
  seen name st → WebsocketServer.process_file name st = (st, Normal tt).
Proof.
  intros Hseen. unfold WebsocketServer.process_file, bind at 1, gets at 1.
  by rewrite bool_decide_eq_true_2.
Qed.

Ltac unfold_poller :=
  unfold new_socket, on_connection; unfold_callbacks; unfold ws_send.

Ltac pre_done :=
  intros; unfold seen, waiting, spares in *; simpl in *; repeat (case_match; simpl in *);
  repeat match goal with Hand : _ ∧ _ |- _ => destruct Hand end; split_and?;
  rewrite ?lookup_delete_ne, ?lookup_insert_ne by done;
  first [ done | by apply String.eqb_neq
        | rewrite ?elem_of_union, ?elem_of_difference, ?elem_of_singleton in *;
          intuition congruence ].

Lemma broadcast_guarded pre name event :
  (∀ st t, pre st → pre (set_trace t st)) →
  steady (guarded pre (spares name)) (WebsocketServer.broadcast event).
Proof. intros Hpre. unfold_poller. guarded_walk; first [exact Hpre | done]. Qed.

Lemma broadcast_guarded_any pre event :
  (∀ st t, pre st → pre (set_trace t st)) →
  steady (guarded pre (λ _, True)) (WebsocketServer.broadcast event).
Proof. intros Hpre. unfold_poller. guarded_walk; first [exact Hpre | done]. Qed.

Lemma process_file_other_sealed name g :
  g ≠ name →
  steady (guarded (seen name) (spares name)) (WebsocketServer.process_file g).
Proof.
  intros Hg. unfold WebsocketServer.process_file. guarded_walk.
  all: try (apply broadcast_guarded; by intros ? ? ?).
  all: unfold_poller; guarded_walk.
  all: pre_done.
Qed.

Lemma process_file_sealed name g :
  steady (guarded (seen name) (spares name)) (WebsocketServer.process_file g).
Proof.
  destruct (decide (g = name)) as [->|Hg]; [|by apply process_file_other_sealed].
  intros st Hseen. unfold exec. rewrite process_file_seen by done.
  split; [done|]. exists []. by rewrite app_nil_r.
Qed.

Lemma process_file_other_waiting name f g :
  g ≠ name →
  steady (guarded (waiting name f) (spares name)) (WebsocketServer.process_file g).
Proof.
  intros Hg. unfold WebsocketServer.process_file. guarded_walk.
  all: try (apply broadcast_guarded; by intros ? ? ?).
  all: unfold_poller; guarded_walk.
  all: pre_done.
Qed.

Lemma poll_sealed name : steady (guarded (seen name) (spares name)) WebsocketServer.poll.
Proof.
  unfold WebsocketServer.poll. guarded_walk; try apply process_file_sealed.
  all: unfold_poller; guarded_walk.
  all: pre_done.
Qed.

Lemma handle_sealed name i :
  steady (guarded (seen name) (spares name)) (WebsocketServer.handle i).
Proof.
  destruct i; simpl; try apply poll_sealed.
  all: unfold WebsocketServer.on_message; guarded_walk.
  all: try (apply broadcast_guarded; by intros ? ? ?).
  all: unfold_poller; guarded_walk.
  all: pre_done.
Qed.

Lemma run_sealed name inputs st :
  guarded (seen name) (spares name) st (WebsocketServer.run inputs st).
Proof.
  revert st. induction inputs as [|i inputs IH]; intros st; simpl; [reflexivity|].
  etransitivity; [apply (handle_sealed name i st) | apply IH].
Qed.

(** *** The primitive calls on a file that is there *)

Lemma statSync_found name f st :
  disk st !! name = Some f →
  WebsocketServer.statSync name st = (log [FsStat name] st, Normal f).
Proof.
  intros Hf. unfold WebsocketServer.statSync, emit, bind, gets, modify; simpl. by rewrite Hf.
Qed.

Lemma readFileSync_found name f text st :
  disk st !! name = Some f → content f = Some text →
  WebsocketServer.readFileSync name st = (log [FsRead name] st, Normal text).
Proof.
  intros Hf Ht. unfold WebsocketServer.readFileSync, emit, bind, gets, modify; simpl.
  rewrite Hf. destruct f as [m c p]; simpl in Ht. by rewrite Ht.
Qed.

Lemma unlinkSync_found name f st :
  disk st !! name = Some f → pinned f = None →
  WebsocketServer.unlinkSync name st =
    (set_disk (delete name (disk st)) (log [FsUnlink name] st), Normal tt).
Proof.
  intros Hf Hp. unfold WebsocketServer.unlinkSync, emit, bind, gets, modify; simpl.
  by rewrite Hf, Hp.
Qed.

Lemma unlinkSync_pinned name f message st :
  disk st !! name = Some f → pinned f = Some message →
  WebsocketServer.unlinkSync name st = (log [FsUnlink name] st, Throw message).
Proof.
  intros Hf Hp. unfold WebsocketServer.unlinkSync, emit, bind, gets, modify, throw; simpl.
  by rewrite Hf, Hp.
Qed.

Lemma tick_log es st : tick (log es st) = log es (tick st).
Proof. done. Qed.

Lemma Date_now_spec st : Date_now st = (tick st, Normal (clock st (reads st))).
Proof. done. Qed.

(** The turn for a file that is not marked and is past the grace window,
    up to the point where its text has been read. *)
Lemma process_file_reads name f text st :
  name ∉ processedFiles st →
  disk st !! name = Some f →
  aged f (clock st (reads st)) →
  content f = Some text →
  WebsocketServer.process_file name st =
    try_catch
      (event <- parse text ;;
       _ <- member event "event" ;;
       WebsocketServer.broadcast event ;;;
       WebsocketServer.unlinkSync name)
      (λ err, console_error "File event error:" err)
      (log [FsStat name; FsRead name]
         (tick (set_processedFiles ({[name]} ∪ processedFiles st) st))).
Proof.
  intros Hnew Hf Hage Ht. unfold WebsocketServer.process_file, bind at 1, gets at 1.
  rewrite bool_decide_eq_false_2 by done. unfold bind at 1, modify at 1.
  unfold try_catch. unfold bind at 1.
  rewrite (statSync_found name f) by done. unfold bind at 1. rewrite Date_now_spec.
  change (clock _ (reads _)) with (clock st (reads st)).
  destruct (Qlt_le_dec _ _) as [Hyoung|_]; [by apply Qlt_not_le in Hyoung|].
  unfold bind at 1.
  rewrite (readFileSync_found name f text) by done. by rewrite tick_log, log_log.
Qed.

(** The turn for a file that is not marked and is inside the grace
    window: one [stat], one reading of the clock, and the mark is taken
    back. *)
Lemma process_file_young name f st :
  name ∉ processedFiles st →
  disk st !! name = Some f →
  young f (clock st (reads st)) →
  WebsocketServer.process_file name st = (tick (log [FsStat name] st), Normal tt).
Proof.
  intros Hnew Hf Hyoung. unfold WebsocketServer.process_file, bind at 1, gets at 1.
  rewrite bool_decide_eq_false_2 by done. unfold bind at 1, modify at 1.
  unfold try_catch. unfold bind at 1.
  rewrite (statSync_found name f) by done. unfold bind at 1. rewrite Date_now_spec.
  change (clock _ (reads _)) with (clock st (reads st)).
  destruct (Qlt_le_dec _ _) as [_|Hage]; [|by apply Qle_not_lt in Hage].
  unfold modify, tick, log, set_reads, set_trace, set_processedFiles; simpl.
  replace (({[name]} ∪ processedFiles st) ∖ {[name]}) with (processedFiles st); [done|].
  apply set_eq. intros x. rewrite elem_of_difference, elem_of_union, !elem_of_singleton.
  split; [intros Hx; split; [by right | by intros ->] | by intros [[?|?] ?]].
Qed.

(** *** The clock during a scan *)

Ltac time_kept :=
  unfold_statements; steady_walk;
  unfold keeps, time; simpl; repeat (case_match; simpl); done.

(** A turn reads the clock at most once. *)
Lemma process_file_time g c k :
  steady (leads (λ s, time s = (c, k)) (λ s, time s = (c, k) ∨ time s = (c, S k)))
    (WebsocketServer.process_file g).
Proof.
  unfold WebsocketServer.process_file.
  apply (leads_bind _ (λ s, time s = (c, k))); [by intros st Hst | by left |].
  intros marked. destruct marked; [intros st Hst; by left|].
  apply (leads_bind _ (λ s, time s = (c, k))); [by intros st Hst | by left |].
  intros _.
  apply (leads_try_catch _ (λ s, time s = (c, k) ∨ time s = (c, S k))); [|done|].
  - apply (leads_bind _ (λ s, time s = (c, k))); [|by left|].
    { apply (kept_leads time (λ t, t = (c, k))). time_kept. }
    intros stats.
    apply (leads_bind _ (λ s, time s = (c, S k))); [|by right|].
    { intros st Hst. unfold time in *. injection Hst as <- <-. reflexivity. }
    intros t st Hst. right. revert st Hst.
    apply (kept_leads time (λ t, t = (c, S k))). time_kept.
  - intros e. apply (kept_leads time (λ t, t = (c, k) ∨ t = (c, S k))). time_kept.
Qed.

Lemma scan_time xs st :
  let st' := fold_left (λ s x, exec (WebsocketServer.process_file x) s) xs st in
  clock st' = clock st ∧ reads st ≤ reads st' ≤ reads st + length xs.
Proof.
  revert st. induction xs as [|g xs IH]; intros st; simpl; [split; [done | lia]|].
  destruct (process_file_time g (clock st) (reads st) st eq_refl) as [Ht|Ht];
    unfold time in Ht; injection Ht as Hc Hr;
    destruct (IH (exec (WebsocketServer.process_file g) st)) as (Hc' & Hlo & Hhi);
    rewrite Hc', Hc; (split; [done | lia]).
Qed.

(** *** A whole scan *)

Lemma fold_steady {A} (R : relation state) `{!PreOrder R} (body : A → M unit) xs st :
  (∀ x, x ∈ xs → steady R (body x)) →
  R st (fold_left (λ s x, exec (body x) s) xs st).
Proof.
  revert st. induction xs as [|x xs IH]; intros st Hb; simpl; [reflexivity|].
  etransitivity; [apply (Hb x); by left|]. apply IH. intros y Hy. apply Hb. by right.
Qed.

(** With the flag down and the directory listable, a scan is the turns of
    the listed spool files one after the other. *)
Lemma poll_scan st :
  redisAvailable st = false → dir_ok st = true →
  WebsocketServer.poll st =
    (fold_left (λ s x, exec (WebsocketServer.process_file x) s) (spool_files st)
       (log [FsReaddir] st), Normal tt).
Proof.
  intros Hflag Hdir. unfold WebsocketServer.poll, bind at 1, gets at 1. rewrite Hflag.
  unfold try_catch, bind at 1.
  assert (WebsocketServer.readdirSync st =
          (log [FsReaddir] st, Normal (WebsocketServer.listing st))) as ->.
  { unfold WebsocketServer.readdirSync, emit, bind, gets, modify; simpl. by rewrite Hdir. }
  rewrite for_of_returns by apply process_file_returns. done.
Qed.

(** Without the flag down and the directory listable, a scan touches no
    file. *)
Lemma poll_idle st :
  redisAvailable st = true ∨ dir_ok st = false →
  ∃ ext, exec WebsocketServer.poll st = log ext st ∧
         Forall (λ e, ∀ name, spares name e) ext.
Proof.
  intros Hidle. destruct (redisAvailable st) eqn:Hflag.
  - exists []. split; [|constructor]. rewrite log_nil.
    unfold exec, WebsocketServer.poll, bind, gets. by rewrite Hflag.
  - destruct Hidle as [|Hdir]; [done|].
    exists [FsReaddir; ConsoleError "Directory watch error:"
                         "ENOENT: no such file or directory, scandir"].
    split; [|by repeat constructor].
    unfold exec, WebsocketServer.poll, bind at 1, gets at 1. rewrite Hflag.
    unfold try_catch, bind at 1, WebsocketServer.readdirSync, emit, bind, gets, modify.
    simpl. rewrite Hdir. simpl. unfold log, set_trace; simpl. by rewrite <- app_assoc.
Qed.

Lemma process_file_keeps_hub g : steady (keeps hub) (WebsocketServer.process_file g).
Proof. unfold_statements. steady_walk; field_done. Qed.

Lemma process_file_keeps_gone name g :
  steady (preserved (λ s, disk s !! name = None)) (WebsocketServer.process_file g).
Proof.
  unfold_statements. steady_walk.
  all: unfold preserved; simpl; try done.
  intros Hnone. by apply lookup_delete_None; right.
Qed.

(** A marked file stays as it is through the turns of a scan. *)
Lemma process_file_keeps_marked name f g :
  steady (guarded (λ s, seen name s ∧ disk s !! name = Some f) (spares name))
    (WebsocketServer.process_file g).
Proof.
  destruct (decide (g = name)) as [->|Hg].
  - intros st [Hseen Hf]. unfold exec. rewrite process_file_seen by done.
    split; [done|]. exists []. by rewrite app_nil_r.
  - unfold WebsocketServer.process_file. guarded_walk.
    all: try (apply broadcast_guarded; by intros ? ? ?).
    all: unfold_poller; guarded_walk.
    all: pre_done.
Qed.

Lemma spool_files_listed name f st :
  WebsocketServer.spool_name name = true → disk st !! name = Some f →
  ∃ before after,
    spool_files st = before ++ name :: after ∧ (name ∉ before) ∧ (name ∉ after).
Proof.
  intros Hname Hf.
  assert (name ∈ spool_files st) as Hin.
  { apply list_elem_of_filter. split; [done|]. unfold WebsocketServer.listing.
    rewrite merge_sort_Permutation.
    apply list_elem_of_fmap. exists (name, f). split; [done|]. by apply elem_of_map_to_list. }
  assert (NoDup (spool_files st)) as Hnodup.
  { apply NoDup_filter. unfold WebsocketServer.listing. rewrite merge_sort_Permutation.
    apply NoDup_fst_map_to_list. }
  destruct (list_elem_of_split _ _ Hin) as (before & after & Heq).
  exists before, after. split; [done|]. rewrite Heq in Hnodup.
  apply NoDup_app in Hnodup as (_ & Hsep & Hrest). apply NoDup_cons in Hrest as [Hafter _].
  split; [|done]. intros Hb. apply (Hsep name Hb). by left.
Qed.


(** A scan gets to every listed file: when its turn comes the file is
    as the scan found it, and the clock has been read less often than
    there are names to go through. *)
Lemma poll_reaches name f st :
  redisAvailable st = false → dir_ok st = true →
  WebsocketServer.spool_name name = true →
  name ∉ processedFiles st →
  disk st !! name = Some f →
  ∃ after s1 ext1,
    WebsocketServer.poll st =
      (fold_left (λ s x, exec (WebsocketServer.process_file x) s) after
         (exec (WebsocketServer.process_file name) s1), Normal tt) ∧
    (name ∉ after) ∧
    waiting name f s1 ∧ hub s1 = hub st ∧ clock s1 = clock st ∧
    reads st ≤ reads s1 < reads st + length (spool_files st) ∧
    trace s1 = trace st ++ FsReaddir :: ext1 ∧ Forall (spares name) ext1.
Proof.
  intros Hflag Hdir Hname Hnew Hf. rewrite poll_scan by done.
  destruct (spool_files_listed name f st Hname Hf) as (before & after & Heq & Hb & Ha).
  rewrite Heq, fold_left_app, length_app. cbn [fold_left length].
  set (s0 := log [FsReaddir] st).
  set (s1 := fold_left (λ s x, exec (WebsocketServer.process_file x) s) before s0).
  destruct (fold_steady (guarded (waiting name f) (spares name))
              WebsocketServer.process_file before s0) as (Hwait & ext1 & Ht1 & Hsp1);
    [|done|].
  { intros g Hg. apply process_file_other_waiting. by intros ->. }
  fold s1 in Hwait, Ht1.
  destruct (scan_time before s0) as (Hclock & Hlo & Hhi). fold s1 in Hclock, Hlo, Hhi.
  exists after, s1, ext1. split; [done|]. split; [done|]. split; [done|]. split.
  { apply (fold_steady (keeps hub) WebsocketServer.process_file before s0).
    intros g _. apply process_file_keeps_hub. }
  split; [done|]. split; [simpl in *; lia|]. split; [|done].
  rewrite Ht1. unfold s0, log, set_trace; cbn [trace]. by rewrite <- app_assoc.
Qed.




(** *** A file past the grace window *)

(** The turn for a file that is not marked, is past the grace window and
    holds an envelope: read, broadcast, delete. *)
Lemma process_file_consumes name f text event st :
  name ∉ processedFiles st →
  disk st !! name = Some f →
  aged f (clock st (reads st)) →
  content f = Some text →
  JSON_parse text = Some event →
  loggable event = true →
  pinned f = None →
  exec (WebsocketServer.process_file name) st =
    set_disk (delete name (disk st))
      (log (consumption st name (JSON_stringify event))
         (tick (set_processedFiles ({[name]} ∪ processedFiles st) st))).
Proof.
  intros Hnew Hf Hage Ht Hparse Hlog Hpin. unfold exec.
  rewrite (process_file_reads name f text) by done.
  unfold try_catch, bind at 1, parse. rewrite Hparse. unfold ret at 1.
  destruct (tag_spec event Hlog) as (tag & -> & _).
  unfold bind at 1, ret at 1. unfold bind at 1. rewrite broadcast_spec by done.
  cbv zeta. rewrite (unlinkSync_found name f) by done.
  unfold consumption, attempt, outcome_of, log, tick, set_disk, set_trace, set_reads; simpl.
  f_equal. set (sends := flat_map _ _). set (summary := BroadcastComplete _ _ _).
  clearbody sends summary. repeat (rewrite <- app_assoc; simpl). done.
Qed.

(** The same turn when [unlinkSync] throws: the envelope has been
    broadcast, the error is logged and the file stays. *)
Lemma process_file_pinned name f text event message st :
  name ∉ processedFiles st →
  disk st !! name = Some f →
  aged f (clock st (reads st)) →
  content f = Some text →
  JSON_parse text = Some event →
  loggable event = true →
  pinned f = Some message →
  exec (WebsocketServer.process_file name) st =
    log (consumption st name (JSON_stringify event) ++
         [ConsoleError "File event error:" message])
      (tick (set_processedFiles ({[name]} ∪ processedFiles st) st)).
Proof.
  intros Hnew Hf Hage Ht Hparse Hlog Hpin. unfold exec.
  rewrite (process_file_reads name f text) by done.
  unfold try_catch, bind at 1, parse. rewrite Hparse. unfold ret at 1.
  destruct (tag_spec event Hlog) as (tag & -> & _).
  unfold bind at 1, ret at 1. unfold bind at 1. rewrite broadcast_spec by done.
  cbv zeta. rewrite (unlinkSync_pinned name f message) by done.
  unfold consumption, attempt, outcome_of, console_error, emit, modify, log, tick,
    set_trace, set_reads; simpl.
  f_equal. set (sends := flat_map _ _). set (summary := BroadcastComplete _ _ _).
  clearbody sends summary. repeat (rewrite <- app_assoc; simpl). done.
Qed.

Lemma consumption_hub st st' name message :
  hub st' = hub st → consumption st' name message = consumption st name message.
Proof.
  unfold hub. intros [= Hs Hc]. unfold consumption, attempt, outcome_of. by rewrite Hs, Hc.
Qed.


(** What [during_scan] gives at the turn of a file. *)
Lemma during_scan_turn P st s1 :
  during_scan P st → clock s1 = clock st →
  reads st ≤ reads s1 < reads st + length (spool_files st) →
  P (clock s1 (reads s1)).
Proof. intros HP Hclock Hreads. rewrite Hclock. by apply HP. Qed.

(** A scan with the flag down consumes a listed file that is not marked,
    is past the grace window, holds an envelope and can be deleted. *)
Lemma poll_consumes name f text event st :
  redisAvailable st = false → dir_ok st = true →
  WebsocketServer.spool_name name = true →
  name ∉ processedFiles st →
  disk st !! name = Some f →
  during_scan (aged f) st →
  content f = Some text →
  JSON_parse text = Some event →
  loggable event = true →
  pinned f = None →
  let st' := exec WebsocketServer.poll st in
  name ∈ processedFiles st' ∧ disk st' !! name = None ∧
  ∃ before after,
    trace st' = trace st ++ before ++ consumption st name (JSON_stringify event) ++ after.
Proof.
  intros Hflag Hdir Hname Hnew Hf Hage Ht Hparse Hlog Hpin st'.
  destruct (poll_reaches name f st Hflag Hdir Hname Hnew Hf)
    as (after & s1 & ext1 & Hpoll & _ & [Hnew1 Hf1] & Hhub & Hclock & Hreads & Ht1 & _).
  unfold st', exec. rewrite Hpoll. cbn [fst].
  rewrite (process_file_consumes name f text event s1)
    by (by try apply (during_scan_turn (aged f) st s1)).
  rewrite (consumption_hub s1 st) by done.
  set (s2 := set_disk _ _).
  assert (seen name s2) as Hseen2.
  { unfold seen, s2; simpl. apply elem_of_union. left. by apply elem_of_singleton. }
  destruct (fold_steady (guarded (seen name) (spares name))
              WebsocketServer.process_file after s2) as (Hseen3 & ext3 & Ht3 & _); [|done|].
  { intros g _. apply process_file_sealed. }
  split; [done|]. split.
  - apply (fold_steady (preserved (λ s, disk s !! name = None))
             WebsocketServer.process_file after s2).
    + intros g _. apply process_file_keeps_gone.
    + unfold s2; simpl. apply lookup_delete_eq.
  - exists (FsReaddir :: ext1), ext3. rewrite Ht3.
    unfold s2, log, tick, set_disk, set_trace, set_reads, set_processedFiles; cbn [trace].
    rewrite Ht1. by rewrite <- !app_assoc.
Qed.

(** The same scan when the file cannot be deleted. *)
Lemma poll_pinned name f text event message st :
  redisAvailable st = false → dir_ok st = true →
  WebsocketServer.spool_name name = true →
  name ∉ processedFiles st →
  disk st !! name = Some f →
  during_scan (aged f) st →
  content f = Some text →
  JSON_parse text = Some event →
  loggable event = true →
  pinned f = Some message →
  let st' := exec WebsocketServer.poll st in
  name ∈ processedFiles st' ∧ disk st' !! name = Some f ∧
  ∃ before after,
    trace st' = trace st ++ before ++
                (consumption st name (JSON_stringify event) ++
                 [ConsoleError "File event error:" message]) ++ after ∧
    Forall (spares name) before ∧ Forall (spares name) after.
Proof.
  intros Hflag Hdir Hname Hnew Hf Hage Ht Hparse Hlog Hpin st'.
  destruct (poll_reaches name f st Hflag Hdir Hname Hnew Hf)
    as (after & s1 & ext1 & Hpoll & _ & [Hnew1 Hf1] & Hhub & Hclock & Hreads & Ht1 & Hsp1).
  unfold st', exec. rewrite Hpoll. cbn [fst].
  rewrite (process_file_pinned name f text event message s1)
    by (by try apply (during_scan_turn (aged f) st s1)).
  rewrite (consumption_hub s1 st) by done.
  set (s2 := log _ _).
  assert (seen name s2 ∧ disk s2 !! name = Some f) as Hkept.
  { split; [|done]. unfold seen, s2; simpl. apply elem_of_union. left.
    by apply elem_of_singleton. }
  destruct (fold_steady (guarded (λ s, seen name s ∧ disk s !! name = Some f) (spares name))
              WebsocketServer.process_file after s2)
    as ((Hseen3 & Hf3) & ext3 & Ht3 & Hsp3); [|done|].
  { intros g _. apply process_file_keeps_marked. }
  split; [done|]. split; [done|].
  exists (FsReaddir :: ext1), ext3. split; [|split; [by constructor | done]].
  rewrite Ht3. unfold s2, log, tick, set_trace, set_reads, set_processedFiles; cbn [trace].
  rewrite Ht1. by rewrite <- !app_assoc.
Qed.


(** *** A file inside the grace window *)

(** A scan leaves a file that is inside the grace window as it found it:
    in place, not marked, neither read nor deleted. *)
Lemma poll_young name f st :
  name ∉ processedFiles st →
  disk st !! name = Some f →
  during_scan (young f) st →
  let st' := exec WebsocketServer.poll st in
  waiting name f st' ∧
  ∃ ext, trace st' = trace st ++ ext ∧ Forall (spares name) ext ∧
         (redisAvailable st = false → dir_ok st = true →
          WebsocketServer.spool_name name = true → FsStat name ∈ ext).
Proof.
  intros Hnew Hf Hyoung st'.
  destruct (decide (redisAvailable st = false ∧ dir_ok st = true)) as [[Hflag Hdir]|Hidle].
  2: { destruct (poll_idle st) as (ext & Hpoll & Hext).
       { destruct (redisAvailable st), (dir_ok st); auto. }
       unfold st'. rewrite Hpoll. split; [done|]. exists ext. split; [done|]. split.
       - eapply Forall_impl; [exact Hext|]. intros e He. apply He.
       - intros Hflag Hdir. destruct Hidle. done. }
  destruct (WebsocketServer.spool_name name) eqn:Hname.
  - destruct (poll_reaches name f st Hflag Hdir Hname Hnew Hf)
      as (after & s1 & ext1 & Hpoll & Hafter & [Hnew1 Hf1] & _ & Hclock & Hreads & Ht1 & Hsp1).
    unfold st', exec. rewrite Hpoll. cbn [fst].
    assert (exec (WebsocketServer.process_file name) s1 = tick (log [FsStat name] s1))
      as Hturn.
    { unfold exec. rewrite (process_file_young name f s1); [done..|].
      by apply (during_scan_turn (young f) st s1). }
    rewrite Hturn. set (s2 := tick _).
    destruct (fold_steady (guarded (waiting name f) (spares name))
                WebsocketServer.process_file after s2) as (Hwait & ext3 & Ht3 & Hsp3);
      [|done|].
    { intros g Hg. apply process_file_other_waiting. by intros ->. }
    split; [done|]. exists (FsReaddir :: ext1 ++ FsStat name :: ext3).
    split; [|split].
    + rewrite Ht3. unfold s2, tick, log, set_trace, set_reads; cbn [trace].
      rewrite Ht1. by rewrite <- !app_assoc.
    + constructor; [done|]. apply Forall_app. split; [done|]. by constructor.
    + intros _ _ _. apply elem_of_cons. right. apply elem_of_app. right. by left.
  - unfold st', exec. rewrite poll_scan by done. cbn [fst].
    destruct (fold_steady (guarded (waiting name f) (spares name))
                WebsocketServer.process_file (spool_files st) (log [FsReaddir] st))
      as (Hwait & ext & Ht & Hsp); [|done|].
    { intros g [Hg _]%list_elem_of_filter. apply process_file_other_waiting.
      intros ->. congruence. }
    split; [done|]. exists (FsReaddir :: ext). split; [|split; [by constructor | done]].
    rewrite Ht. unfold log, set_trace; cbn [trace]. by rewrite <- app_assoc.
Qed.

Lemma handle_calm name f i :
  calm name i = true →
  steady (guarded (waiting name f) (λ _, True)) (WebsocketServer.handle i).
Proof.
  intros Hcalm. destruct i; simpl in *; try discriminate.
  all: unfold WebsocketServer.on_message; guarded_walk.
  all: try (apply broadcast_guarded_any; by intros ? ? ?).
  all: unfold_poller; guarded_walk.
  all: try (apply negb_true_iff, String.eqb_neq in Hcalm).
  all: unfold waiting in *; pre_done.
Qed.

Lemma run_calm name f world st :
  forallb (calm name) world = true →
  guarded (waiting name f) (λ _, True) st (WebsocketServer.run world st).
Proof.
  revert st. induction world as [|i world IH]; intros st Hcalm; simpl; [reflexivity|].
  simpl in Hcalm. apply andb_prop in Hcalm as [Hi Hworld].
  etransitivity; [apply (handle_calm name f i Hi st) | by apply IH].
Qed.

End Poller.



(** C6.  A scan during which a spool file that is not marked is inside the
    grace window only stats it: the file is not read, not deleted, and is
    not marked when the scan ends.  At the next scan after it, provided the
    flag is down, the directory can be listed, and the file is still
    there, past the window, readable, holding an envelope whose event tag
    can be logged, and deletable, the file is read, its envelope broadcast,
    and the file deleted. *)
Theorem young_file_waits_for_a_later_scan `{JSON}
    (name : string) (f : file) (st : state) :
  name ∉ processedFiles st →
  disk st !! name = Some f →
  during_scan (young f) st →
  let st1 := WebsocketServer.step st WebsocketServer.Interval in
  (name ∉ processedFiles st1) ∧
  disk st1 !! name = Some f ∧
  (∃ ext, trace st1 = trace st ++ ext ∧ Forall (spares name) ext ∧
          (redisAvailable st = false → dir_ok st = true →
           WebsocketServer.spool_name name = true → FsStat name ∈ ext)) ∧
  (∀ world text event,
     forallb (calm name) world = true →
     let st2 := WebsocketServer.run world st1 in
     redisAvailable st2 = false →
     dir_ok st2 = true →
     WebsocketServer.spool_name name = true →
     during_scan (aged f) st2 →
     content f = Some text →
     JSON_parse text = Some event →
     loggable event = true →
     pinned f = None →
     let st3 := WebsocketServer.step st2 WebsocketServer.Interval in
     name ∈ processedFiles st3 ∧
     disk st3 !! name = None ∧
     ∃ before after,
       trace st3 =
         trace st2 ++ before ++ consumption st2 name (JSON_stringify event) ++ after).
Proof.
  intros Hnew Hf Hyoung st1.
  destruct (poll_young name f st Hnew Hf Hyoung) as ((Hnew1 & Hf1) & Hext1).
  split; [done|]. split; [done|]. split; [done|].
  intros world text event Hworld st2 Hflag Hdir Hname Hage Ht Hparse Hlog Hpin st3.
  destruct (run_calm name f world st1 Hworld) as ((Hnew2 & Hf2) & _); [done|].
  by apply (poll_consumes name f text event st2).
Qed.

Lemma young_file_waits_for_a_later_scan_witness :
  let name := "tournament_1.json" in
  let text := Fixture.print Fixture.match_updated in
  let f := File 990 (Some text) None in
  let st := WebsocketServer.run (H := Fixture.codec) [WebsocketServer.Connection false]
              (WebsocketServer.boot false {[ name := f ]} 1000) in
  let st1 := WebsocketServer.step (H := Fixture.codec) st WebsocketServer.Interval in
  let world := [WebsocketServer.ClockBecomes (λ _, 1500%Z)] in
  let st2 := WebsocketServer.run (H := Fixture.codec) world st1 in
  let st3 := WebsocketServer.step (H := Fixture.codec) st2 WebsocketServer.Interval in
  ((name ∉ processedFiles st) ∧ disk st !! name = Some f ∧ during_scan (young f) st) ∧
  (forallb (calm name) world = true ∧ redisAvailable st2 = false ∧ dir_ok st2 = true ∧
   WebsocketServer.spool_name name = true ∧ during_scan (aged f) st2 ∧
   content f = Some text ∧
   JSON_parse (JSON := Fixture.codec) text = Some Fixture.match_updated ∧
   loggable Fixture.match_updated = true ∧ pinned f = None) ∧
  disk st1 !! name = Some f ∧ disk st3 !! name = None.
Proof.
  intros name text f st st1 world st2 st3.
  assert (name ∉ processedFiles st) as H1 by apply not_elem_of_empty.
  assert (disk st !! name = Some f) as H2 by apply lookup_singleton_eq.
  assert (during_scan (young f) st) as H3 by (intros k _; by vm_compute).
  split; [done|].
  destruct (young_file_waits_for_a_later_scan (H := Fixture.codec) name f st H1 H2 H3)
    as (_ & Hkept & _ & Hlater).
  assert (during_scan (aged f) st2) as H4 by (intros k _; by vm_compute).
  split; [by repeat split|]. split; [exact Hkept|].
  by apply (Hlater world text Fixture.match_updated).
Defined.

(** * Further properties *)

(** ** The reconnection delay *)

(** X1.  The delay before a reconnection attempt grows by five seconds per
    retry from zero, never decreases, and is thirty seconds from the sixth
    retry on. *)
Theorem reconnectStrategy_is_capped (retries : Z) :
  (0 ≤ retries)%Z →
  (0 ≤ Config.reconnectStrategy retries ≤ 30000)%Z ∧
  (retries ≤ 6 → Config.reconnectStrategy retries = retries * 5000)%Z ∧
  (6 ≤ retries → Config.reconnectStrategy retries = 30000)%Z ∧
  (∀ later, retries ≤ later →
     Config.reconnectStrategy retries ≤ Config.reconnectStrategy later)%Z.
Proof.
  intros Hr. unfold Config.reconnectStrategy, Config.REDIS_RETRY_INTERVAL.
  repeat split; intros; lia.
Qed.

Lemma reconnectStrategy_is_capped_witness :
  (0 ≤ 3)%Z ∧ Config.reconnectStrategy 3 = 15000%Z ∧ Config.reconnectStrategy 9 = 30000%Z.
Proof.
  destruct (reconnectStrategy_is_capped 3 ltac:(lia)) as (_ & Hlin & _ & _).
  destruct (reconnectStrategy_is_capped 9 ltac:(lia)) as (_ & _ & Hcap & _).
  split; [lia|]. split; [apply Hlin; lia | apply Hcap; lia].
Defined.

(** ** Configuration *)

Lemma REDIS_HOST_truthy `{NUMBER} env_host :
  truthy_env (Some (Config.REDIS_HOST env_host)) = true.
Proof.
  unfold Config.REDIS_HOST. destruct env_host as [s|]; [|done]. simpl.
  by destruct (String.eqb s EmptyString) eqn:Hs; simpl; rewrite ?Hs.
Qed.

(** X2.  Whether Redis is used depends on REDIS_PORT alone: REDIS_HOST
    always has a value, so Redis is enabled when REDIS_PORT is unset or
    empty (port 6379), and disabled exactly when REDIS_PORT is set to a text
    that [Number] turns into zero or NaN.  The listening port is never zero
    or NaN, and is 8081 when WEBSOCKET_PORT is unset. *)
Theorem redis_enabled_by_port_only `{NUMBER} (env_host env_port : option string) :
  Config.REDIS_ENABLED env_host env_port = truthy_number (Config.REDIS_PORT env_port) ∧
  (truthy_env env_port = false →
   Config.REDIS_PORT env_port = Num 6379 ∧ Config.REDIS_ENABLED env_host env_port = true) ∧
  (Config.REDIS_ENABLED env_host env_port = false ↔
   truthy_env env_port = true ∧ truthy_number (Config.Number_env env_port) = false) ∧
  (∀ env, truthy_number (Config.PORT env) = true) ∧
  Config.PORT None = Num 8081.
Proof.
  assert (Config.REDIS_ENABLED env_host env_port = truthy_number (Config.REDIS_PORT env_port))
    as Henabled by (unfold Config.REDIS_ENABLED; by rewrite REDIS_HOST_truthy).
  split; [done|]. rewrite Henabled. unfold Config.REDIS_PORT. split; [|split; [|split]].
  - intros ->. done.
  - destruct (truthy_env env_port).
    + split; [by intros ? | by intros [_ ?]].
    + split; [by vm_compute | by intros [? _]].
  - intros env. unfold Config.PORT. cbv zeta.
    by destruct (truthy_number (Config.Number_env env)) eqn:Hn.
  - done.
Qed.

Lemma redis_enabled_by_port_only_witness :
  let number : NUMBER := λ s, if String.eqb s "6380" then Num 6380 else NaN in
  truthy_env None = false ∧
  Config.REDIS_ENABLED (H := number) (Some EmptyString) None = true ∧
  Config.REDIS_ENABLED (H := number) (Some "cache") (Some "none") = false.
Proof.
  intros number.
  pose proof (redis_enabled_by_port_only (H := number) (Some EmptyString) None) as (_ & Hunset & _).
  pose proof (redis_enabled_by_port_only (H := number) (Some "cache") (Some "none"))
    as (_ & _ & Hoff & _).
  split; [done|]. split; [by apply Hunset | by apply Hoff].
Defined.

(** ** The registry is a set of live handles *)

Section RegistrySound.
Context `{JSON}.

Lemma assignment_registry_sound st st' :
  (clients st' = clients st ∨ (∃ ws, clients st' = filter (λ x, x ≠ ws) (clients st))) →
  length (sockets st) ≤ length (sockets st') →
  preserved registry_sound st st'.
Proof.
  intros Hclients Hsockets [Hnodup Hin]. unfold registry_sound.
  destruct Hclients as [->|(ws & ->)].
  - split; [done|]. eapply Forall_impl; [exact Hin|]. intros c Hc. simpl in Hc. lia.
  - split; [by apply NoDup_filter|]. apply Forall_forall. intros c Hc.
    apply list_elem_of_filter in Hc as [_ Hc]. rewrite Forall_forall in Hin.
    specialize (Hin c Hc). simpl in Hin. lia.
Qed.

Lemma connection_registry_sound throws :
  steady (preserved registry_sound) (ws <- new_socket throws ;; on_connection ws).
Proof.
  intros st [Hnodup Hin]. destruct (connection_spec throws st) as [l ->].
  rewrite Forall_forall in Hin. unfold registry_sound, exec, clients_add, modify; simpl.
  rewrite length_app; simpl. case_bool_decide as Hmem; simpl.
  - split; [done|]. apply Forall_forall. intros c Hc. specialize (Hin c Hc). lia.
  - split.
    + apply NoDup_app. split; [done|]. split; [|apply NoDup_singleton].
      intros x Hx ->%list_elem_of_singleton. done.
    + apply Forall_forall. intros c [Hc| ->%list_elem_of_singleton]%elem_of_app; [|lia].
      specialize (Hin c Hc). lia.
Qed.

Ltac registry_walk :=
  unfold_statements; steady_walk;
  apply assignment_registry_sound; simpl; repeat (case_match; simpl);
  rewrite ?length_insert, ?length_app; try lia; eauto.

Lemma handle_registry_sound i :
  steady (preserved registry_sound) (WebsocketServer.handle i).
Proof. destruct i; simpl; try apply connection_registry_sound; registry_walk. Qed.

Lemma railway_handle_registry_sound i :
  steady (preserved registry_sound) (Railway.handle i).
Proof. destruct i; simpl; try apply connection_registry_sound; registry_walk. Qed.

End RegistrySound.

(** X3.  In both deployments, at every point of every run, the registry
    holds no socket twice and every socket it holds is one the server was
    handed by a connection. *)
Theorem registry_is_a_set_of_live_handles `{JSON} :
  (∀ inputs enabled spool t,
     let st := WebsocketServer.run inputs (WebsocketServer.boot enabled spool t) in
     NoDup (clients st) ∧ Forall (λ c, c < length (sockets st)) (clients st)) ∧
  (∀ inputs,
     let st := Railway.run inputs Railway.boot in
     NoDup (clients st) ∧ Forall (λ c, c < length (sockets st)) (clients st)).
Proof.
  split.
  - intros inputs enabled spool t.
    assert (registry_sound (WebsocketServer.boot enabled spool t)) as Hboot.
    { destruct enabled; split; simpl; constructor. }
    generalize dependent (WebsocketServer.boot enabled spool t).
    induction inputs as [|i inputs IH]; intros st Hst; simpl; [done|].
    apply IH. by apply handle_registry_sound.
  - intros inputs.
    assert (registry_sound Railway.boot) as Hboot by (split; simpl; constructor).
    generalize dependent Railway.boot.
    induction inputs as [|i inputs IH]; intros st Hst; simpl; [done|].
    apply IH. by apply railway_handle_registry_sound.
Qed.

(** ** Exceptions stay inside the callbacks *)

Section Returns.
Context `{JSON}.

Lemma console_error_returns line detail st : snd (console_error line detail st) = Normal tt.
Proof. done. Qed.

Lemma on_message_returns message st :
  snd (WebsocketServer.on_message message st) = Normal tt.
Proof. by apply try_catch_returns. Qed.

Lemma railway_on_message_returns message st :
  snd (Railway.on_message message st) = Normal tt.
Proof. by apply try_catch_returns. Qed.

Lemma lifecycle_returns ws st :
  snd ((s <- gets (λ st, sockets st !! ws) ;;
        match s with
        | Some s => socket_becomes ws CLOSED (send_throws s) ;;; on_close ws
        | None => ret tt
        end) st) = Normal tt ∧
  snd (on_error ws st) = Normal tt.
Proof.
  unfold on_error, on_close, socket_becomes, clients_delete, bind, gets, modify, ret.
  split; repeat (case_match; simpl in *; simplify_eq); done.
Qed.

Lemma connection_outcome throws st :
  snd ((ws <- new_socket throws ;; on_connection ws) st) =
    if throws then Throw "send failed" else Normal tt.
Proof.
  unfold new_socket, on_connection, ws_send, clients_add, attach_listeners,
    emit, bind, gets, modify, throw; simpl.
  case_bool_decide; simpl; rewrite lookup_app_r, Nat.sub_diag by done; simpl;
    by destruct throws.
Qed.

End Returns.

(** X4.  In both deployments no callback lets an exception escape, with
    one exception: the connection callback, when the [send] of the connect
    envelope throws. *)
Theorem only_connection_can_throw `{JSON} :
  (∀ i st,
     i = WebsocketServer.Connection true ∨
     snd (WebsocketServer.handle i st) = Normal tt) ∧
  (∀ st, snd (WebsocketServer.handle (WebsocketServer.Connection true) st) =
           Throw "send failed") ∧
  (∀ i st,
     i = Railway.Connection true ∨ snd (Railway.handle i st) = Normal tt) ∧
  (∀ st, snd (Railway.handle (Railway.Connection true) st) = Throw "send failed").
Proof.
  split; [|split; [|split]].
  - intros i st. destruct i as [[]| | | | | | | | | | | |]; [by left|right..]; simpl.
    + apply (connection_outcome false).
    + apply lifecycle_returns.
    + apply lifecycle_returns.
    + unfold WebsocketServer.redis_settled, WebsocketServer.redis_failed, bind, gets.
      by destruct (redis st), ok.
    + unfold WebsocketServer.on_redis_error, bind, gets. by destruct (redis st).
    + unfold WebsocketServer.on_redis_error, bind, gets. by destruct (redis st).
    + unfold bind at 1, gets at 1. destruct (redis st); try done; apply on_message_returns.
    + apply poll_returns.
    + done.
    + done.
    + done.
    + done.
    + done.
  - intros st. apply (connection_outcome true).
  - intros i st. destruct i as [[]| | | |]; [by left|right..]; simpl.
    + apply (connection_outcome false).
    + apply lifecycle_returns.
    + apply lifecycle_returns.
    + apply railway_on_message_returns.
    + done.
  - intros st. apply (connection_outcome true).
Qed.

(** ** Messages from the broker *)

(** X5.  A broker message that does not decode is logged and dropped: in
    both deployments the listener returns normally, writes its error lines
    with [console.error] and changes nothing else; nothing is sent to any
    client. *)
Theorem undecodable_message_is_dropped `{JSON} (text : string) (st : state) :
  undecodable text →
  ∃ detail,
    WebsocketServer.on_message text st =
      (log [ConsoleError "Redis message parse error:" detail; ConsoleError "Raw:" text] st,
       Normal tt) ∧
    Railway.on_message text st =
      (log [ConsoleError "Invalid Redis message:" detail] st, Normal tt) ∧
    ∀ c, delivered c (trace (exec (WebsocketServer.on_message text) st)) =
           delivered c (trace st) ∧
         delivered c (trace (exec (Railway.on_message text) st)) = delivered c (trace st).
Proof.
  intros Hbad.
  assert (∀ detail,
            console_error "Invalid Redis message:" detail st =
            (log [ConsoleError "Invalid Redis message:" detail] st, Normal tt)) as Hrail
    by done.
  assert (∀ detail,
            (console_error "Redis message parse error:" detail ;;;
             console_error "Raw:" text) st =
            (log [ConsoleError "Redis message parse error:" detail;
                  ConsoleError "Raw:" text] st, Normal tt)) as Hmain.
  { intros detail. unfold console_error, emit, bind, modify, log, set_trace; simpl.
    by rewrite <- app_assoc. }
  assert (∀ detail,
            WebsocketServer.on_message text st =
              (log [ConsoleError "Redis message parse error:" detail;
                    ConsoleError "Raw:" text] st, Normal tt) →
            Railway.on_message text st =
              (log [ConsoleError "Invalid Redis message:" detail] st, Normal tt) →
            ∀ c, delivered c (trace (exec (WebsocketServer.on_message text) st)) =
                   delivered c (trace st) ∧
                 delivered c (trace (exec (Railway.on_message text) st)) =
                   delivered c (trace st)) as Hnone.
  { intros detail Hm Hr c. unfold exec. rewrite Hm, Hr. simpl.
    rewrite !delivered_app. simpl. by rewrite !app_nil_r. }
  assert (∃ detail,
            WebsocketServer.on_message text st =
              (log [ConsoleError "Redis message parse error:" detail;
                    ConsoleError "Raw:" text] st, Normal tt) ∧
            Railway.on_message text st =
              (log [ConsoleError "Invalid Redis message:" detail] st, Normal tt))
    as (detail & Hm & Hr).
  2: { exists detail. split; [done|]. split; [done|]. by apply (Hnone detail). }
  destruct Hbad as [Hbad | (event & Hparse & Hlog)].
  - exists "Unexpected token". split.
    + unfold WebsocketServer.on_message, try_catch, bind at 1, parse. rewrite Hbad.
      apply Hmain.
    + unfold Railway.on_message, try_catch, bind at 1, parse. by rewrite Hbad.
  - destruct (tag_fails event Hlog) as (detail & Hcase). exists detail. split.
    + unfold WebsocketServer.on_message, try_catch, bind at 1, parse. rewrite Hparse.
      unfold ret at 1.
      destruct Hcase as [Hm | (tag & Hm & Ht)]; rewrite Hm; [apply Hmain|].
      unfold bind at 1, ret at 1.
      rewrite (broadcast_throws event detail) by (right; eauto). apply Hmain.
    + unfold Railway.on_message, try_catch, bind at 1, parse. rewrite Hparse.
      unfold ret at 1.
      destruct Hcase as [Hm | (tag & Hm & Ht)]; rewrite Hm; [apply Hrail|].
      unfold bind at 1, ret at 1. unfold bind at 1. rewrite Ht. apply Hrail.
Qed.

Lemma undecodable_message_is_dropped_witness :
  let st := WebsocketServer.run (H := Fixture.codec)
              [WebsocketServer.Connection false] (WebsocketServer.boot true ∅ 0) in
  undecodable (H := Fixture.codec) "{oops" ∧
  delivered 0 (trace (exec (WebsocketServer.on_message (H := Fixture.codec) "{oops") st)) =
    delivered 0 (trace st).
Proof.
  intros st.
  assert (undecodable (H := Fixture.codec) "{oops") as Hbad by (left; reflexivity).
  split; [exact Hbad|].
  destruct (undecodable_message_is_dropped (H := Fixture.codec) "{oops" st Hbad)
    as (detail & _ & _ & Hnone).
  exact (proj1 (Hnone 0)).
Defined.

(** X6.  A broker message that decodes to a value whose event tag can be
    logged is handed, serialized again, exactly once to every registered
    client that is OPEN and whose [send] returns, and to no other client;
    the registry and the sockets are left as they were. *)
Theorem decodable_message_is_fanned_out `{JSON}
    (text : string) (event : json) (st : state) :
  JSON_parse text = Some event →
  loggable event = true →
  NoDup (clients st) →
  let st' := exec (WebsocketServer.on_message text) st in
  hub st' = hub st ∧
  ∀ c, delivered c (trace st') =
         delivered c (trace st) ++
         (if receives st c then [JSON_stringify event] else []).
Proof.
  intros Hparse Hlog Hnodup st'.
  assert (WebsocketServer.on_message text st = WebsocketServer.broadcast event st) as Heq.
  { unfold WebsocketServer.on_message, try_catch, bind at 1, parse. rewrite Hparse.
    unfold ret at 1.
    assert (∃ v, member event "event" = ret v) as [v ->] by (destruct event; by eauto).
    unfold bind at 1, ret at 1. by rewrite broadcast_spec. }
  unfold st', exec. rewrite Heq. split.
  - destruct (broadcast_state event st Hlog) as [es Hes]. unfold exec in Hes. by rewrite Hes.
  - intros c. unfold delivered. fold (exec (WebsocketServer.broadcast event) st).
    rewrite sends_to_broadcast, omap_app by done. f_equal.
    unfold offered, receives. destruct (bool_decide (c ∈ clients st)); simpl; [|done].
    by destruct (outcome_of st c) as [[]|].
Qed.

Lemma decodable_message_is_fanned_out_witness :
  let text := Fixture.print Fixture.match_updated in
  let st := WebsocketServer.run (H := Fixture.codec)
              [WebsocketServer.Connection false; WebsocketServer.Connection false;
               WebsocketServer.SocketBecomes 1 CLOSING false]
              (WebsocketServer.boot true ∅ 0) in
  let st' := exec (WebsocketServer.on_message (H := Fixture.codec) text) st in
  (JSON_parse (JSON := Fixture.codec) text = Some Fixture.match_updated ∧
   loggable Fixture.match_updated = true ∧ NoDup (clients st)) ∧
  delivered 0 (trace st') = delivered 0 (trace st) ++ [text] ∧
  delivered 1 (trace st') = delivered 1 (trace st) ++ [].
Proof.
  intros text st st'.
  assert (JSON_parse (JSON := Fixture.codec) text = Some Fixture.match_updated) as H1
    by reflexivity.
  assert (loggable Fixture.match_updated = true) as H2 by reflexivity.
  assert (NoDup (clients st)) as H3.
  { vm_compute. apply NoDup_cons. split; [|apply NoDup_singleton].
    intros Hin%list_elem_of_singleton. discriminate. }
  split; [done|].
  destruct (decodable_message_is_fanned_out (H := Fixture.codec) text Fixture.match_updated st
              H1 H2 H3) as [_ Hfan].
  split; [exact (Hfan 0) | exact (Hfan 1)].
Defined.

(** ** The flag is raised at most once *)

Section FlagOnce.
Context `{JSON}.

Lemma step_flag_stays_down i st :
  redisAvailable st = false → past_connects st →
  redisAvailable (WebsocketServer.step st i) = false ∧
  past_connects (WebsocketServer.step st i).
Proof.
  intros Hflag [Hcc Hcs]. destruct (about_redis i) eqn:Hi.
  - unfold past_connects, WebsocketServer.step, exec.
    destruct i; try discriminate; simpl;
      unfold WebsocketServer.redis_settled, WebsocketServer.redis_failed,
        WebsocketServer.on_redis_error, console_error, emit, bind, gets, modify;
      destruct (redis st) eqn:Hphase; try destruct ok; simpl; rewrite ?Hphase; done.
  - pose proof (handle_keeps_broker i Hi st) as Hk.
    unfold keeps, broker in Hk. injection Hk as Hf Hp.
    unfold past_connects, WebsocketServer.step. by rewrite Hf, Hp.
Qed.

Lemma run_flag_stays_down inputs st :
  redisAvailable st = false → past_connects st →
  redisAvailable (WebsocketServer.run inputs st) = false.
Proof.
  revert st. induction inputs as [|i inputs IH]; intros st Hflag Hpast; simpl; [done|].
  destruct (step_flag_stays_down i st Hflag Hpast) as [Hflag' Hpast']. by apply IH.
Qed.

End FlagOnce.

(** X7.  [redisAvailable] is assigned [true] at one place, which
    [startRedis] passes once.  So once both connects have settled, a flag
    that is false stays false whatever happens next; in particular after an
    'error' event of either Redis connection the flag never comes back up,
    and the poller is never gated again. *)
Theorem flag_never_comes_back `{JSON} (st : state) (inputs : list WebsocketServer.input) :
  redisAvailable st = false →
  redis st ≠ ConnectingClient →
  redis st ≠ ConnectingSubscriber →
  redisAvailable (WebsocketServer.run inputs st) = false ∧
  (∀ i st0,
     i = WebsocketServer.RedisClientError ∨ i = WebsocketServer.RedisSubscriberError →
     redis st0 = Subscribing ∨ redis st0 = Subscribed →
     redisAvailable (WebsocketServer.run (i :: inputs) st0) = false).
Proof.
  intros Hflag Hcc Hcs. split; [by apply run_flag_stays_down|].
  intros i st0 Hi Hphase. simpl. apply run_flag_stays_down.
  - unfold WebsocketServer.step, exec.
    destruct Hi as [-> | ->], Hphase as [Hp | Hp]; simpl;
      unfold WebsocketServer.on_redis_error, console_error, emit, bind, gets, modify;
      by rewrite Hp.
  - unfold past_connects, WebsocketServer.step, exec.
    destruct Hi as [-> | ->], Hphase as [Hp | Hp]; simpl;
      unfold WebsocketServer.on_redis_error, console_error, emit, bind, gets, modify;
      rewrite Hp; simpl; by rewrite Hp.
Qed.

Lemma flag_never_comes_back_witness :
  let up := WebsocketServer.run (H := Fixture.codec)
              [WebsocketServer.RedisSettled true; WebsocketServer.RedisSettled true;
               WebsocketServer.RedisSettled true]
              (WebsocketServer.boot true ∅ 0) in
  let later := [WebsocketServer.RedisSettled true; WebsocketServer.Interval;
                WebsocketServer.RedisMessage "7"] in
  let down := WebsocketServer.step (H := Fixture.codec) up WebsocketServer.RedisClientError in
  (redisAvailable up = true ∧ redis up = Subscribed) ∧
  (redisAvailable down = false ∧ redis down ≠ ConnectingClient ∧
   redis down ≠ ConnectingSubscriber) ∧
  redisAvailable (WebsocketServer.run (H := Fixture.codec) later down) = false.
Proof.
  intros up later down.
  assert (redisAvailable down = false) as H1 by reflexivity.
  assert (redis down ≠ ConnectingClient) as H2 by discriminate.
  assert (redis down ≠ ConnectingSubscriber) as H3 by discriminate.
  split; [done|]. split; [done|].
  exact (proj1 (flag_never_comes_back (H := Fixture.codec) down later H1 H2 H3)).
Defined.

(** ** Who a broadcast sends to *)

Lemma not_to_attempt ws st message c :
  c ≠ ws ∨ outcome_of st ws = None → Forall (not_to ws) (attempt st message c).
Proof.
  intros Hc. unfold attempt, not_to.
  destruct (decide (c = ws)) as [->|Hne].
  - destruct Hc as [Hc|Hc]; [done|]. rewrite Hc. constructor.
  - destruct (outcome_of st c) as [[]|]; repeat constructor; simpl;
      by destruct (Nat.eqb_spec c ws).
Qed.

Lemma not_to_attempts ws st message cs :
  ws ∉ cs ∨ outcome_of st ws = None →
  Forall (not_to ws) (flat_map (attempt st message) cs).
Proof.
  intros Hws. induction cs as [|c cs IH]; simpl; [constructor|].
  apply Forall_app. split.
  - apply not_to_attempt. destruct Hws as [Hws|Hws]; [left|by right].
    intros ->. apply Hws. by left.
  - apply IH. destruct Hws as [Hws|Hws]; [left|by right].
    intros Hin. apply Hws. by right.
Qed.

Lemma not_to_railway_attempts ws st message cs :
  ws ∉ cs ∨ outcome_of st ws = None →
  Forall (not_to ws) (fst (railway_attempts st message cs)).
Proof.
  intros Hws. induction cs as [|c cs IH]; simpl; [constructor|].
  assert (ws ∉ cs ∨ outcome_of st ws = None) as Hrest.
  { destruct Hws as [Hws|Hws]; [left|by right]. intros Hin. apply Hws. by right. }
  assert (c ≠ ws ∨ outcome_of st ws = None) as Hhead.
  { destruct Hws as [Hws|Hws]; [left|by right]. intros ->. apply Hws. by left. }
  destruct (outcome_of st c) as [[]|] eqn:Hc; simpl; [| |by apply IH].
  - constructor; [|by apply IH]. unfold not_to; simpl.
    destruct (Nat.eqb_spec c ws) as [->|]; [|done]. destruct Hhead; congruence.
  - repeat constructor. unfold not_to; simpl.
    destruct (Nat.eqb_spec c ws) as [->|]; [|done]. destruct Hhead; congruence.
Qed.

Lemma sends_to_not_to ws es : Forall (not_to ws) es → sends_to ws es = [].
Proof.
  induction 1 as [|e es He _ IH]; [done|].
  change (e :: es) with ([e] ++ es). by rewrite sends_to_app, IH, He.
Qed.

Section RailwayLoop.
Context `{JSON}.

Lemma railway_attempt_spec message c st :
  (rs <- get_readyState c ;; if is_OPEN rs then ws_send c message else ret tt) st =
    match outcome_of st c with
    | Some true => (log [WsSend c message true] st, Normal tt)
    | Some false => (log [WsSend c message false] st, Throw "send failed")
    | None => (st, Normal tt)
    end.
Proof.
  unfold outcome_of, get_readyState, ws_send, emit, bind, gets, modify, ret, throw.
  destruct (sockets st !! c) as [[rs throws l]|] eqn:Hs; simpl;
    [destruct rs, throws; simpl|]; rewrite ?Hs; simpl; done.
Qed.

Lemma railway_attempts_log es st message cs :
  railway_attempts (log es st) message cs = railway_attempts st message cs.
Proof.
  induction cs as [|c cs IH]; [done|]. cbn [railway_attempts]. rewrite IH.
  by change (outcome_of (log es st) c) with (outcome_of st c).
Qed.

(** The loop of the Railway [broadcast], in closed form. *)
Lemma railway_loop_spec message cs st :
  for_of cs (λ client, rs <- get_readyState client ;;
                       if is_OPEN rs then ws_send client message else ret tt) st =
    (log (fst (railway_attempts st message cs)) st,
     if snd (railway_attempts st message cs) then Throw "send failed" else Normal tt).
Proof.
  revert st. induction cs as [|c cs IH]; intros st.
  - simpl. by rewrite log_nil.
  - cbn [for_of railway_attempts]. unfold bind at 1. rewrite railway_attempt_spec.
    destruct (outcome_of st c) as [[]|] eqn:Hc; [|done|by rewrite IH].
    by rewrite IH, log_log, railway_attempts_log.
Qed.

Lemma railway_broadcast_spec event st :
  Railway.broadcast event st =
    (log (fst (railway_attempts st (JSON_stringify event) (clients st))) st,
     if snd (railway_attempts st (JSON_stringify event) (clients st))
     then Throw "send failed" else Normal tt).
Proof. unfold Railway.broadcast, bind at 1, gets at 1. apply railway_loop_spec. Qed.

End RailwayLoop.

(** X8.  [broadcast] calls [send] only on sockets that are in the registry
    and whose [readyState] is OPEN at that moment: in both deployments a
    socket that is not registered, or not OPEN, is sent nothing by a
    broadcast, whatever the event. *)
Theorem broadcast_sends_only_to_registered_open `{JSON}
    (c : nat) (event : json) (st : state) :
  registered_open st c = false →
  sends_to c (trace (exec (WebsocketServer.broadcast event) st)) = sends_to c (trace st) ∧
  sends_to c (trace (exec (Railway.broadcast event) st)) = sends_to c (trace st).
Proof.
  intros Hc.
  assert (c ∉ clients st ∨ outcome_of st c = None) as Hout.
  { unfold registered_open in Hc. apply andb_false_iff in Hc as [Hc|Hc].
    - left. by apply bool_decide_eq_false in Hc.
    - right. unfold outcome_of. destruct (sockets st !! c); [by rewrite Hc | done]. }
  split.
  - destruct (loggable event) eqn:Hlog.
    2: { destruct (broadcast_fails event st Hlog) as [detail Hthrow].
         unfold exec. by rewrite Hthrow. }
    unfold exec. rewrite broadcast_spec by done. unfold log, set_trace; cbn [fst trace].
    rewrite !sends_to_app, (sends_to_not_to c (flat_map _ _)) by by apply not_to_attempts.
    simpl. by rewrite app_nil_r.
  - unfold exec. rewrite railway_broadcast_spec. unfold log, set_trace; cbn [fst trace].
    rewrite sends_to_app, (sends_to_not_to c (fst _))
      by by apply not_to_railway_attempts.
    by rewrite app_nil_r.
Qed.

Lemma broadcast_sends_only_to_registered_open_witness :
  let st := WebsocketServer.run (H := Fixture.codec)
              [WebsocketServer.Connection false; WebsocketServer.Connection false;
               WebsocketServer.SocketBecomes 1 CLOSING false]
              (WebsocketServer.boot false ∅ 0) in
  registered_open st 1 = false ∧
  sends_to 1 (trace (exec (WebsocketServer.broadcast (H := Fixture.codec)
                             Fixture.match_updated) st)) =
    sends_to 1 (trace st).
Proof.
  intros st. assert (registered_open st 1 = false) as Hc by reflexivity.
  split; [exact Hc|].
  exact (proj1 (broadcast_sends_only_to_registered_open (H := Fixture.codec) 1
                  Fixture.match_updated st Hc)).
Defined.

(** ** The delivery summary *)

Lemma tally_sent os tally :
  fst (fold_left tally_step os tally) =
  fst tally + length (filter (λ o, o = Some true) os).
Proof.
  revert tally. induction os as [|o os IH]; intros tally; cbn [fold_left].
  - simpl. lia.
  - rewrite IH. destruct o as [[]|];
      [rewrite filter_cons_True by done | rewrite filter_cons_False by done ..];
      simpl; lia.
Qed.

(** X9.  A [broadcast] that gets past its opening lines (the event tag can
    be logged) ends with a summary, and the summary is exact: [total] is
    the size of the registry, [sent] is the number of registered sockets
    that were OPEN and whose [send] returned, [failed] counts all the
    others, and as many [send] calls returned during the broadcast as
    [sent] says. *)
Theorem broadcast_summary_is_exact `{JSON} (event : json) (st : state) :
  loggable event = true →
  let st' := exec (WebsocketServer.broadcast event) st in
  ∃ sent failed ext,
    trace st' = trace st ++ ext ∧
    last ext = Some (BroadcastComplete sent failed (length (clients st))) ∧
    sent = length (filter (λ o, o = Some true) (outcome_of st <$> clients st)) ∧
    sent + failed = length (clients st) ∧
    length (filter returned ext) = sent.
Proof.
  intros Hlog st'. unfold st', exec. rewrite broadcast_spec by done. cbv zeta.
  unfold log, set_trace; cbn [fst trace].
  eexists _, _, _. split; [reflexivity|]. split.
  { by rewrite !app_assoc, last_snoc. }
  split; [by rewrite tally_sent|]. split.
  { rewrite tally_total. simpl. by rewrite length_fmap. }
  rewrite tally_sent. cbn [fst Nat.add app].
  rewrite filter_cons_False by (by intros ?).
  rewrite filter_app, length_app.
  rewrite (filter_cons_False _ (BroadcastComplete _ _ _)) by (by intros ?).
  cbn [filter length]. rewrite Nat.add_0_r.
  induction (clients st) as [|c cs IH]; [done|].
  cbn [flat_map fmap list_fmap]. rewrite filter_app, length_app, IH. unfold attempt.
  destruct (outcome_of st c) as [[]|].
  - rewrite filter_cons_True by done. by rewrite filter_cons_True by done.
  - rewrite (filter_cons_False _ (Some false)) by (by intros ?).
    by rewrite !filter_cons_False by (by intros ?).
  - by rewrite (filter_cons_False _ None) by (by intros ?).
Qed.

Lemma broadcast_summary_is_exact_witness :
  let st := WebsocketServer.run (H := Fixture.codec)
              [WebsocketServer.Connection false; WebsocketServer.Connection false;
               WebsocketServer.SocketBecomes 1 CLOSING false]
              (WebsocketServer.boot false ∅ 0) in
  let st' := exec (WebsocketServer.broadcast (H := Fixture.codec) Fixture.match_updated) st in
  loggable Fixture.match_updated = true ∧
  last (trace st') = Some (BroadcastComplete 1 1 2).
Proof.
  intros st st'. split; [reflexivity|].
  destruct (broadcast_summary_is_exact (H := Fixture.codec) Fixture.match_updated st
              eq_refl) as (sent & failed & ext & Htrace & Hlast & Hsent & Hsum & _).
  fold st' in Htrace. rewrite Htrace.
  destruct ext as [|e ext]; [discriminate|].
  rewrite last_app_cons. rewrite Hlast. f_equal.
  assert (sent = 1) as -> by (rewrite Hsent; reflexivity).
  assert (failed = 1) as -> by (change (length (clients st)) with 2 in Hsum; lia).
  reflexivity.
Defined.

(** ** When a broadcast does not start *)

(** X15.  [broadcast] of [websocket-server.js] either runs to its end or
    does nothing at all.  It throws exactly when the event tag cannot be
    logged: the event is null, or it is an object whose [event] member has
    no string conversion.  It then throws before it has logged or sent
    anything, and the state is as it was. *)
Theorem broadcast_runs_or_does_nothing `{JSON} (event : json) (st : state) :
  (loggable event = false ↔
   event = JNull ∨
   ∃ members tag, event = JObject members ∧ assoc "event" members = Some tag ∧
                  stringifies tag = false) ∧
  (loggable event = true → snd (WebsocketServer.broadcast event st) = Normal tt) ∧
  (loggable event = false →
   ∃ detail, WebsocketServer.broadcast event st = (st, Throw detail)).
Proof.
  split; [|split].
  - split.
    + intros Hlog. destruct event; try discriminate; [by left|]. right. simpl in Hlog.
      destruct (assoc "event" members) as [tag|] eqn:Htag; [|done]. by exists members, tag.
    + intros [-> | (members & tag & -> & Htag & Hbad)]; [done|]. simpl. by rewrite Htag.
  - intros Hlog. by rewrite broadcast_spec.
  - apply broadcast_fails.
Qed.

(** ** A closed connection is left alone *)

Section Unregistered.
Context `{JSON}.

Lemma broadcast_shuns ws event :
  steady (guarded (unregistered ws) (not_to ws)) (WebsocketServer.broadcast event).
Proof.
  intros st [Hlen Hout]. destruct (loggable event) eqn:Hlog.
  2: { destruct (broadcast_fails event st Hlog) as [detail Hthrow].
       unfold exec. rewrite Hthrow. simpl.
       split; [done|]. exists []. by rewrite app_nil_r. }
  - unfold exec. rewrite broadcast_spec by done. cbv zeta. cbn [fst].
    split; [done|]. eexists. split; [reflexivity|].
    apply Forall_app. split; [by repeat constructor|].
    apply Forall_app. split; [|by repeat constructor].
    apply not_to_attempts. by left.
Qed.

Lemma railway_broadcast_shuns ws event :
  steady (guarded (unregistered ws) (not_to ws)) (Railway.broadcast event).
Proof.
  intros st [Hlen Hout]. unfold exec. rewrite railway_broadcast_spec. cbn [fst].
  split; [done|]. eexists. split; [reflexivity|].
  apply not_to_railway_attempts. by left.
Qed.

Lemma connection_shuns ws throws :
  steady (guarded (unregistered ws) (not_to ws)) (c <- new_socket throws ;; on_connection c).
Proof.
  intros st [Hlen Hout]. destruct (connection_spec throws st) as [l ->].
  split.
  - unfold unregistered, exec, clients_add, modify; simpl. rewrite length_app.
    split; [lia|]. case_bool_decide; simpl; [done|].
    rewrite elem_of_app, list_elem_of_singleton. intros [?| ->]; [done | lia].
  - eexists. split; [reflexivity|]. repeat constructor. unfold not_to; simpl.
    destruct (Nat.eqb_spec (length (sockets st)) ws); [lia | done].
Qed.

Ltac shun_done :=
  intros; unfold unregistered, not_to in *; simpl in *; repeat (case_match; simpl in *);
  rewrite ?length_insert; try done;
  match goal with
  | Hu : _ ∧ _ |- _ =>
      destruct Hu as [? Hout]; split; [done|];
      intros [_ Hin]%list_elem_of_filter; by apply Hout
  end.

Lemma handle_shuns ws i :
  steady (guarded (unregistered ws) (not_to ws)) (WebsocketServer.handle i).
Proof.
  destruct i; simpl; try apply connection_shuns.
  all: unfold WebsocketServer.on_message, WebsocketServer.poll,
         WebsocketServer.process_file; guarded_walk.
  all: try apply broadcast_shuns.
  all: unfold_callbacks; guarded_walk.
  all: shun_done.
Qed.

Lemma railway_handle_shuns ws i :
  steady (guarded (unregistered ws) (not_to ws)) (Railway.handle i).
Proof.
  destruct i; simpl; try apply connection_shuns.
  all: unfold Railway.on_message; guarded_walk.
  all: try apply railway_broadcast_shuns.
  all: unfold_callbacks; guarded_walk.
  all: shun_done.
Qed.

Lemma run_shuns ws inputs st :
  unregistered ws st →
  unregistered ws (WebsocketServer.run inputs st) ∧
  sends_to ws (trace (WebsocketServer.run inputs st)) = sends_to ws (trace st).
Proof.
  revert st. induction inputs as [|i inputs IH]; intros st Hst; simpl; [done|].
  destruct (handle_shuns ws i st Hst) as (Hst' & ext & Hext & Hnot).
  destruct (IH _ Hst') as [Hend Hsends]. split; [done|].
  unfold WebsocketServer.step. rewrite Hsends, Hext, sends_to_app.
  by rewrite (sends_to_not_to ws ext), app_nil_r.
Qed.

Lemma railway_run_shuns ws inputs st :
  unregistered ws st →
  unregistered ws (Railway.run inputs st) ∧
  sends_to ws (trace (Railway.run inputs st)) = sends_to ws (trace st).
Proof.
  revert st. induction inputs as [|i inputs IH]; intros st Hst; simpl; [done|].
  destruct (railway_handle_shuns ws i st Hst) as (Hst' & ext & Hext & Hnot).
  destruct (IH _ Hst') as [Hend Hsends]. split; [done|].
  unfold Railway.step. rewrite Hsends, Hext, sends_to_app.
  by rewrite (sends_to_not_to ws ext), app_nil_r.
Qed.

(** The 'close' and 'error' listeners take the socket out of the registry
    and call nothing. *)
Lemma on_close_unregisters ws s st :
  sockets st !! ws = Some s → listening s = true →
  unregistered ws (exec (on_close ws) st) ∧ trace (exec (on_close ws) st) = trace st.
Proof.
  intros Hs Hl. unfold exec, on_close, clients_delete, bind, gets, modify.
  rewrite Hs, Hl. simpl. split; [|done]. split; [by eapply lookup_lt_Some|].
  by intros [? _]%list_elem_of_filter.
Qed.

Lemma close_unregisters ws s st :
  sockets st !! ws = Some s → listening s = true →
  unregistered ws (exec (socket_becomes ws CLOSED (send_throws s) ;;; on_close ws) st) ∧
  trace (exec (socket_becomes ws CLOSED (send_throws s) ;;; on_close ws) st) = trace st.
Proof.
  intros Hs Hl.
  pose (st1 := set_sockets (<[ws := Socket CLOSED (send_throws s) (listening s)]> (sockets st)) st).
  assert (exec (socket_becomes ws CLOSED (send_throws s) ;;; on_close ws) st =
          exec (on_close ws) st1) as ->.
  { unfold exec, socket_becomes, bind at 1, modify at 1. by rewrite Hs. }
  apply (on_close_unregisters ws (Socket CLOSED (send_throws s) (listening s)) st1); [|done].
  simpl. apply list_lookup_insert_eq. by eapply lookup_lt_Some.
Qed.

End Unregistered.

(** X10.  Once the 'close' or the 'error' listener of a socket has run, the
    socket is out of the registry for good and no later callback calls
    [send] on it: whatever happens afterwards (messages from the broker,
    scans of the spool directory, other connections coming and going), the
    list of [send] calls made on it stays what it was.  In both
    deployments. *)
Theorem closed_client_is_never_sent_again `{JSON} (ws : nat) (s : socket) (st : state) :
  sockets st !! ws = Some s →
  listening s = true →
  (∀ i inputs,
     i = WebsocketServer.WsClose ws ∨ i = WebsocketServer.WsError ws →
     let st' := WebsocketServer.run (i :: inputs) st in
     (ws ∉ clients st') ∧ sends_to ws (trace st') = sends_to ws (trace st)) ∧
  (∀ i inputs,
     i = Railway.WsClose ws ∨ i = Railway.WsError ws →
     let st' := Railway.run (i :: inputs) st in
     (ws ∉ clients st') ∧ sends_to ws (trace st') = sends_to ws (trace st)).
Proof.
  intros Hs Hl. split; intros i inputs Hi st'.
  - assert (unregistered ws (WebsocketServer.step st i) ∧
            trace (WebsocketServer.step st i) = trace st) as [Hun Htrace].
    { destruct Hi as [-> | ->]; unfold WebsocketServer.step.
      - assert (WebsocketServer.handle (WebsocketServer.WsClose ws) st =
                (socket_becomes ws CLOSED (send_throws s) ;;; on_close ws) st) as Heq.
        { simpl. unfold bind at 1, gets at 1. by rewrite Hs. }
        unfold exec. rewrite Heq. by apply close_unregisters.
      - by apply (on_close_unregisters ws s). }
    destruct (run_shuns ws inputs _ Hun) as [[_ Hout] Hsends].
    unfold st'. simpl. by rewrite Hsends, Htrace.
  - assert (unregistered ws (Railway.step st i) ∧
            trace (Railway.step st i) = trace st) as [Hun Htrace].
    { destruct Hi as [-> | ->]; unfold Railway.step.
      - assert (Railway.handle (Railway.WsClose ws) st =
                (socket_becomes ws CLOSED (send_throws s) ;;; on_close ws) st) as Heq.
        { simpl. unfold bind at 1, gets at 1. by rewrite Hs. }
        unfold exec. rewrite Heq. by apply close_unregisters.
      - by apply (on_close_unregisters ws s). }
    destruct (railway_run_shuns ws inputs _ Hun) as [[_ Hout] Hsends].
    unfold st'. simpl. by rewrite Hsends, Htrace.
Qed.

Lemma closed_client_is_never_sent_again_witness :
  let st := WebsocketServer.run (H := Fixture.codec)
              [WebsocketServer.Connection false; WebsocketServer.Connection false]
              (WebsocketServer.boot false ∅ 0) in
  let later := [WebsocketServer.WsClose 0;
                WebsocketServer.RedisSettled true; WebsocketServer.RedisSettled true;
                WebsocketServer.RedisSettled true;
                WebsocketServer.RedisMessage (Fixture.print Fixture.match_updated)] in
  sockets st !! 0 = Some (Socket OPEN false true) ∧
  sends_to 0 (trace (WebsocketServer.run (H := Fixture.codec) later st)) =
    sends_to 0 (trace st).
Proof.
  intros st later. assert (sockets st !! 0 = Some (Socket OPEN false true)) as Hs
    by reflexivity.
  split; [exact Hs|].
  exact (proj2 (proj1 (closed_client_is_never_sent_again (H := Fixture.codec) 0 _ st
                         Hs eq_refl) (WebsocketServer.WsClose 0) _ (or_introl eq_refl))).
Defined.

(** ** A spool file is consumed once *)

Lemma touched_app name a b : touched name (a ++ b) = touched name a ++ touched name b.
Proof. apply filter_app. Qed.

Lemma touched_spared name es : Forall (spares name) es → touched name es = [].
Proof.
  induction 1 as [|e es He _ IH]; [done|]. unfold touched in *.
  rewrite filter_cons_False; [done|]. unfold spares in He. by rewrite He.
Qed.

Lemma touched_read name : touched name [FsRead name] = [FsRead name].
Proof. unfold touched. rewrite filter_cons_True; [done|]. apply String.eqb_refl. Qed.

Lemma touched_unlink name : touched name [FsUnlink name] = [FsUnlink name].
Proof. unfold touched. rewrite filter_cons_True; [done|]. apply String.eqb_refl. Qed.

Lemma sealed_leads {A} name l (m : M A) :
  steady (guarded (seen name) (spares name)) m →
  steady (leads (marked_after name l) (marked_after name l)) m.
Proof.
  intros Hm st [Hseen Ht]. destruct (Hm st Hseen) as (Hseen' & ext & Hext & Hsp).
  split; [done|]. by rewrite Hext, touched_app, (touched_spared name ext), app_nil_r.
Qed.

(** A statement that never reads or deletes [name], and never takes its
    mark back, keeps the file consumed at most once. *)
Lemma read_once_steady {A} name (m : M A) :
  steady (guarded (λ _, True) (spares name)) m →
  steady (guarded (seen name) (spares name)) m →
  steady (preserved (read_once name)) m.
Proof.
  intros Hany Hsealed st Hst. destruct (decide (name ∈ processedFiles st)) as [Hseen|Hnew].
  - destruct (Hsealed st Hseen) as (Hseen' & ext & Hext & Hsp).
    unfold read_once. rewrite Hext, touched_app, (touched_spared name ext), app_nil_r by done.
    destruct Hst as [Ht|[_ Ht]]; [by left | by right].
  - destruct (Hany st I) as (_ & ext & Hext & Hsp). left.
    rewrite Hext, touched_app, (touched_spared name ext), app_nil_r by done.
    destruct Hst as [Ht|[Hseen _]]; done.
Qed.

Section ReadOnce.
Context `{JSON}.

Ltac spared :=
  unfold new_socket, on_connection; unfold_callbacks; unfold ws_send; guarded_walk;
  intros; unfold seen, spares in *; simpl in *; repeat (case_match; simpl in *);
  first [ done | by apply String.eqb_neq
        | rewrite ?elem_of_union, ?elem_of_difference, ?elem_of_singleton in *;
          intuition congruence ].

Lemma readFileSync_marks name :
  steady (leads (marked_after name []) (marked_after name [FsRead name]))
    (WebsocketServer.readFileSync name).
Proof.
  intros st [Hseen Ht].
  assert (marked_after name [FsRead name] (log [FsRead name] st)) as Hlog.
  { split; [done|]. unfold log; simpl. by rewrite touched_app, Ht, touched_read. }
  unfold exec, WebsocketServer.readFileSync, emit, bind, gets, modify; simpl.
  by destruct (disk st !! name) as [[m [text|] p]|].
Qed.

Lemma unlinkSync_marks name :
  steady (leads (marked_after name [FsRead name])
                (marked_after name [FsRead name; FsUnlink name]))
    (WebsocketServer.unlinkSync name).
Proof.
  intros st [Hseen Ht].
  assert (marked_after name [FsRead name; FsUnlink name] (log [FsUnlink name] st)) as Hlog.
  { split; [done|]. unfold log; simpl. by rewrite touched_app, Ht, touched_unlink. }
  unfold exec, WebsocketServer.unlinkSync, emit, bind, gets, modify; simpl.
  by destruct (disk st !! name) as [[m c [|]]|].
Qed.

Lemma process_file_body name :
  steady (leads (marked_after name []) (read_once name))
    (try_catch
       (stats <- WebsocketServer.statSync name ;;
        t <- Date_now ;;
        if Qlt_le_dec (inject_Z t - mtimeMs stats) 50 then
          modify (λ st, set_processedFiles (processedFiles st ∖ {[name]}) st)
        else
          raw <- WebsocketServer.readFileSync name ;;
          event <- parse raw ;;
          _ <- member event "event" ;;
          WebsocketServer.broadcast event ;;;
          WebsocketServer.unlinkSync name)
       (λ err, console_error "File event error:" err)).
Proof.
  assert (∀ s, marked_after name [] s → read_once name s) as Hnone
    by (intros s [_ Ht]; by left).
  assert (∀ s, marked_after name [FsRead name] s → read_once name s) as Hread
    by (intros s [Hs Ht]; right; split; [done | by left]).
  assert (∀ s, marked_after name [FsRead name; FsUnlink name] s → read_once name s) as Hgone
    by (intros s [Hs Ht]; right; split; [done | by right]).
  apply (leads_try_catch _ (read_once name)); [|done|].
  - apply (leads_bind _ (marked_after name [])); [apply sealed_leads; spared | done |].
    intros stats.
    apply (leads_bind _ (marked_after name [])); [apply sealed_leads; spared | done |].
    intros t. destruct (Qlt_le_dec _ _) as [_|_].
    { intros st [_ Ht]. by left. }
    apply (leads_bind _ (marked_after name [FsRead name]));
      [apply readFileSync_marks | done |].
    intros raw.
    apply (leads_bind _ (marked_after name [FsRead name])); [apply sealed_leads; spared | done |].
    intros event.
    apply (leads_bind _ (marked_after name [FsRead name])); [apply sealed_leads; spared | done |].
    intros _.
    apply (leads_bind _ (marked_after name [FsRead name])); [apply sealed_leads; spared | done |].
    intros _ st Hst. apply Hgone. by apply unlinkSync_marks.
  - intros e. change (steady (preserved (read_once name))
                        (console_error "File event error:" e)).
    apply read_once_steady; spared.
Qed.

Lemma process_file_fresh name st :
  name ∉ processedFiles st → touched name (trace st) = [] →
  read_once name (exec (WebsocketServer.process_file name) st).
Proof.
  intros Hnew Ht. unfold exec, WebsocketServer.process_file, bind at 1, gets at 1.
  rewrite bool_decide_eq_false_2 by done. unfold bind at 1, modify at 1.
  apply (process_file_body name). split; [|done]. unfold seen; simpl.
  apply elem_of_union. left. by apply elem_of_singleton.
Qed.

Lemma process_file_other_spares name g :
  g ≠ name →
  steady (guarded (λ _, True) (spares name)) (WebsocketServer.process_file g).
Proof.
  intros Hg. unfold WebsocketServer.process_file. guarded_walk.
  all: try (apply broadcast_guarded; by intros ? ? ?).
  all: spared.
Qed.

Lemma process_file_read_once name g :
  steady (preserved (read_once name)) (WebsocketServer.process_file g).
Proof.
  destruct (decide (g = name)) as [->|Hg].
  - intros st Hst. destruct (decide (name ∈ processedFiles st)) as [Hseen|Hnew].
    + unfold exec. by rewrite process_file_seen.
    + apply process_file_fresh; [done|]. by destruct Hst as [Ht|[Hseen _]].
  - apply read_once_steady;
      [by apply process_file_other_spares | by apply process_file_other_sealed].
Qed.

Lemma poll_read_once name : steady (preserved (read_once name)) WebsocketServer.poll.
Proof.
  unfold WebsocketServer.poll. steady_walk.
  all: try apply process_file_read_once.
  all: apply read_once_steady; spared.
Qed.

Lemma handle_read_once name i :
  steady (preserved (read_once name)) (WebsocketServer.handle i).
Proof.
  destruct i; try apply poll_read_once.
  all: apply read_once_steady; [|apply handle_sealed].
  all: simpl; unfold WebsocketServer.on_message; guarded_walk.
  all: try (apply broadcast_guarded; by intros ? ? ?).
  all: spared.
Qed.

End ReadOnce.

(** X11.  Along every run of [websocket-server.js], each file name of the
    spool is read at most once and deleted at most once, the deletion only
    after the reading, and a name that has been read stays in the
    Processed-File Set: a file written later under a name already read is
    never looked at. *)
Theorem spool_file_is_consumed_at_most_once `{JSON}
    (inputs : list WebsocketServer.input) (enabled : bool)
    (spool : gmap string file) (t : Z) (name : string) :
  let st := WebsocketServer.run inputs (WebsocketServer.boot enabled spool t) in
  touched name (trace st) = [] ∨
  (name ∈ processedFiles st ∧
   (touched name (trace st) = [FsRead name] ∨
    touched name (trace st) = [FsRead name; FsUnlink name])).
Proof.
  intros st. change (read_once name st). unfold st. clear st.
  assert (read_once name (WebsocketServer.boot enabled spool t)) as Hboot
    by (left; by destruct enabled).
  generalize dependent (WebsocketServer.boot enabled spool t).
  induction inputs as [|i inputs IH]; intros st0 Hst0; simpl; [done|].
  apply IH. by apply handle_read_once.
Qed.

(** ** What a scan leaves alone *)

Section Ignored.
Context `{JSON}.

Ltac ignored :=
  unfold new_socket, on_connection; unfold_callbacks; unfold ws_send; guarded_walk;
  intros; unfold as_in, ignores in *; simpl in *; repeat (case_match; simpl in *);
  rewrite ?lookup_delete_ne by done;
  first [ done
        | rewrite ?elem_of_union, ?elem_of_difference, ?elem_of_singleton in *;
          intuition congruence ].

Lemma broadcast_ignores pre name event :
  (∀ st t, pre st → pre (set_trace t st)) →
  steady (guarded pre (ignores name)) (WebsocketServer.broadcast event).
Proof.
  intros Hpre. unfold new_socket, on_connection; unfold_callbacks; unfold ws_send.
  guarded_walk; first [exact Hpre | done].
Qed.

Lemma process_file_ignores st0 name g :
  g ≠ name →
  steady (guarded (as_in st0 name) (ignores name)) (WebsocketServer.process_file g).
Proof.
  intros Hg. unfold WebsocketServer.process_file. guarded_walk.
  all: try (apply broadcast_ignores; by intros ? ? ?).
  all: ignored.
Qed.

Lemma poll_ignores st0 name :
  WebsocketServer.spool_name name = false →
  steady (guarded (as_in st0 name) (ignores name)) WebsocketServer.poll.
Proof.
  intros Hname st Hpre. destruct (redisAvailable st) eqn:Hflag.
  { assert (exec WebsocketServer.poll st = st) as ->
      by (unfold exec, WebsocketServer.poll, bind, gets; by rewrite Hflag).
    split; [done|]. exists []. by rewrite app_nil_r. }
  destruct (dir_ok st) eqn:Hdir.
  - unfold exec. rewrite poll_scan by done. cbn [fst].
    assert (guarded (as_in st0 name) (ignores name) st (log [FsReaddir] st)) as Hlist.
    { intros _. split; [done|]. exists [FsReaddir]. split; [done|]. by repeat constructor. }
    refine (transitivity Hlist _ Hpre).
    apply (fold_steady (guarded (as_in st0 name) (ignores name))).
    intros g [Hg _]%list_elem_of_filter. apply process_file_ignores. intros ->. congruence.
  - assert (exec WebsocketServer.poll st =
            log [FsReaddir; ConsoleError "Directory watch error:"
                              "ENOENT: no such file or directory, scandir"] st) as ->.
    { unfold exec, WebsocketServer.poll, bind at 1, gets at 1. rewrite Hflag.
      unfold try_catch, bind at 1, WebsocketServer.readdirSync, emit, bind, gets, modify.
      simpl. rewrite Hdir. simpl. unfold log, set_trace; simpl. by rewrite <- app_assoc. }
    split; [done|]. eexists. split; [reflexivity|]. by repeat constructor.
Qed.

End Ignored.

(** X12.  A scan leaves alone every file whose name does not start with
    [tournament_] or does not end in [.json]: no [statSync], [readFileSync]
    or [unlinkSync] is called on it, what the directory holds under that
    name is unchanged, and the name is not put into the Processed-File
    Set. *)
Theorem scan_ignores_other_files `{JSON} (name : string) (st : state) :
  WebsocketServer.spool_name name = false →
  let st' := exec WebsocketServer.poll st in
  disk st' !! name = disk st !! name ∧
  (name ∈ processedFiles st' ↔ name ∈ processedFiles st) ∧
  ∃ ext, trace st' = trace st ++ ext ∧
         (FsStat name ∉ ext) ∧ (FsRead name ∉ ext) ∧ (FsUnlink name ∉ ext).
Proof.
  intros Hname st'.
  destruct (poll_ignores st name Hname st) as ((Hdisk & Hmark) & ext & Hext & Hign); [done|].
  split; [done|]. split; [done|]. exists ext. split; [done|].
  rewrite Forall_forall in Hign.
  split_and!; intros Hin; by apply (Hign _ Hin).
Qed.

Lemma scan_ignores_other_files_witness :
  let notes := File 0 (Some "7") None in
  let st := WebsocketServer.boot false {[ "notes.json" := notes ]} 1000 in
  let st' := exec (WebsocketServer.poll (H := Fixture.codec)) st in
  WebsocketServer.spool_name "notes.json" = false ∧
  disk st' !! "notes.json" = Some notes.
Proof.
  intros notes st st'. assert (WebsocketServer.spool_name "notes.json" = false) as Hname
    by reflexivity.
  split; [exact Hname|].
  destruct (scan_ignores_other_files (H := Fixture.codec) "notes.json" st Hname)
    as (Hdisk & _).
  fold st' in Hdisk. rewrite Hdisk. unfold st. simpl. apply lookup_singleton_eq.
Defined.

(** ** A file that cannot be deleted *)

(** X13.  When a scan reaches a spool file that is not marked, is past the
    grace window and holds an envelope whose event tag can be logged, and
    [unlinkSync] fails on it, the envelope has been broadcast by then: the
    scan stats and reads the file, broadcasts, attempts the deletion and
    logs the message of the error.  The file is still in the directory and
    its name is in the Processed-File Set, so nothing reads it or tries to
    delete it again, whatever happens afterwards. *)
Theorem undeletable_file_is_broadcast_once `{JSON}
    (name : string) (f : file) (text : string) (event : json) (message : string)
    (st : state) :
  redisAvailable st = false →
  dir_ok st = true →
  WebsocketServer.spool_name name = true →
  name ∉ processedFiles st →
  disk st !! name = Some f →
  during_scan (aged f) st →
  content f = Some text →
  JSON_parse text = Some event →
  loggable event = true →
  pinned f = Some message →
  let st' := WebsocketServer.step st WebsocketServer.Interval in
  (∃ before after,
     trace st' = trace st ++ before ++
                 (consumption st name (JSON_stringify event) ++
                  [ConsoleError "File event error:" message]) ++ after ∧
     Forall (spares name) before ∧ Forall (spares name) after) ∧
  disk st' !! name = Some f ∧
  name ∈ processedFiles st' ∧
  ∀ inputs,
    let st'' := WebsocketServer.run inputs st' in
    name ∈ processedFiles st'' ∧ touched name (trace st'') = touched name (trace st').
Proof.
  intros Hflag Hdir Hname Hnew Hf Hage Ht Hparse Hlog Hpin st'.
  destruct (poll_pinned name f text event message st
              Hflag Hdir Hname Hnew Hf Hage Ht Hparse Hlog Hpin) as (Hseen & Hkept & Htrace).
  split; [exact Htrace|]. split; [done|]. split; [done|].
  intros inputs.
  destruct (run_sealed name inputs st' Hseen) as (Hseen' & ext & Hext & Hsp).
  split; [done|].
  by rewrite Hext, touched_app, (touched_spared name ext), app_nil_r.
Qed.

Lemma undeletable_file_is_broadcast_once_witness :
  let name := "tournament_7.json" in
  let text := Fixture.print Fixture.match_updated in
  let message := "EBUSY: resource busy or locked, unlink" in
  let f := File 0 (Some text) (Some message) in
  let st := WebsocketServer.run (H := Fixture.codec) [WebsocketServer.Connection false]
              (WebsocketServer.boot false {[ name := f ]} 1000) in
  let st' := WebsocketServer.step (H := Fixture.codec) st WebsocketServer.Interval in
  (redisAvailable st = false ∧ dir_ok st = true ∧
   WebsocketServer.spool_name name = true ∧ (name ∉ processedFiles st) ∧
   disk st !! name = Some f ∧ during_scan (aged f) st ∧ content f = Some text ∧
   JSON_parse (JSON := Fixture.codec) text = Some Fixture.match_updated ∧
   loggable Fixture.match_updated = true ∧ pinned f = Some message) ∧
  disk st' !! name = Some f ∧ name ∈ processedFiles st'.
Proof.
  intros name text message f st st'.
  assert (name ∉ processedFiles st) as H1 by apply not_elem_of_empty.
  assert (disk st !! name = Some f) as H2 by apply lookup_singleton_eq.
  assert (during_scan (aged f) st) as H3 by (intros k _; by vm_compute).
  split; [by repeat split|].
  destruct (undeletable_file_is_broadcast_once (H := Fixture.codec)
              name f text Fixture.match_updated message st
              eq_refl eq_refl eq_refl H1 H2 H3 eq_refl eq_refl eq_refl eq_refl)
    as (_ & Hkept & Hseen & _).
  split; [exact Hkept | exact Hseen].
Defined.

(** ** The two broadcast engines side by side *)

Lemma attempts_without_failure st message cs :
  (∀ c, c ∈ cs → outcome_of st c ≠ Some false) →
  let sends := (λ c, WsSend c message true) <$>
               filter (λ c, outcome_of st c = Some true) cs in
  railway_attempts st message cs = (sends, false) ∧
  flat_map (attempt st message) cs = sends.
Proof.
  induction cs as [|c cs IH]; intros Hcs; [done|].
  destruct IH as [IHr IHm]; [intros c' Hc'; apply Hcs; by right|].
  assert (outcome_of st c ≠ Some false) as Hc by (apply Hcs; by left).
  cbn [railway_attempts flat_map]. unfold attempt at 1. rewrite IHr, IHm.
  destruct (outcome_of st c) as [[]|] eqn:Hout; [|done|].
  - rewrite filter_cons_True by done. split; reflexivity.
  - rewrite filter_cons_False by (by rewrite Hout). split; reflexivity.
Qed.

(** X14.  For an event whose tag can be logged, and as long as no [send]
    throws, the [broadcast] of the Railway deployment and the [broadcast]
    of [websocket-server.js] make the same [send] calls in the same order,
    one for each registered socket that is OPEN, and both return; the
    latter also logs the envelope before and the summary after. *)
Theorem broadcasts_agree_when_no_send_throws `{JSON} (event : json) (st : state) :
  loggable event = true →
  no_send_throws st →
  let message := JSON_stringify event in
  let sends := (λ c, WsSend c message true) <$>
               filter (λ c, outcome_of st c = Some true) (clients st) in
  Railway.broadcast event st = (log sends st, Normal tt) ∧
  WebsocketServer.broadcast event st =
    (log ([Broadcasting message] ++ sends ++
          [BroadcastComplete (length sends) (length (clients st) - length sends)
             (length (clients st))]) st, Normal tt).
Proof.
  intros Hlog Hsafe message sends.
  destruct (attempts_without_failure st message (clients st) Hsafe) as [Hr Hm].
  fold sends in Hr, Hm. split.
  - rewrite railway_broadcast_spec. fold message. by rewrite Hr.
  - rewrite broadcast_spec by done. cbv zeta. fold message. rewrite Hm.
    set (os := outcome_of st <$> clients st).
    assert (fst (fold_left tally_step os (0, 0)) = length sends) as Hsent.
    { rewrite tally_sent. unfold sends, os. rewrite length_fmap. simpl.
      clear. induction (clients st) as [|c cs IH]; [done|]. rewrite fmap_cons.
      destruct (decide (outcome_of st c = Some true)) as [Hc|Hc].
      - rewrite !filter_cons_True by done. simpl. by rewrite IH.
      - by rewrite !filter_cons_False by done. }
    pose proof (tally_total os (0, 0)) as Htotal. unfold os in Htotal at 3.
    rewrite length_fmap in Htotal. simpl in Htotal.
    assert (snd (fold_left tally_step os (0, 0)) = length (clients st) - length sends)
      as Hfailed by lia.
    by rewrite Hsent, Hfailed.
Qed.

Lemma broadcasts_agree_when_no_send_throws_witness :
  let st := WebsocketServer.run (H := Fixture.codec)
              [WebsocketServer.Connection false; WebsocketServer.Connection false;
               WebsocketServer.SocketBecomes 0 CLOSING false]
              (WebsocketServer.boot false ∅ 0) in
  no_send_throws st ∧
  trace (exec (Railway.broadcast (H := Fixture.codec) Fixture.match_updated) st) =
    trace st ++ [WsSend 1 (Fixture.print Fixture.match_updated) true].
Proof.
  intros st.
  assert (no_send_throws st) as Hsafe.
  { intros c Hc. change (clients st) with [0; 1] in Hc.
    apply elem_of_cons in Hc as [->|Hc]; [by vm_compute|].
    apply list_elem_of_singleton in Hc as ->. by vm_compute. }
  split; [exact Hsafe|].
  destruct (broadcasts_agree_when_no_send_throws (H := Fixture.codec)
              Fixture.match_updated st eq_refl Hsafe) as [Hrailway _].
  unfold exec. rewrite Hrailway. reflexivity.
Defined.
